(** * A shallow embedding of the C shell (cshell.c)

    The development follows the source file top to bottom: the command
    frame [_xcmf] and the directive enumeration, the frame parser
    [parseInput] built on [strsep], the [cd] builtin, the two executors
    and the pipe relay ([_pipe_arr], [is_piped], [pipeReset]), and the
    body of the per-line loop of [main].

    Conventions.
    - A C string is a [string]: the bytes before the terminator.  A
      [char*] that may be null is an [option string].
    - [__uint8_t] counters are [Z] with the wrap-around written out.
    - A [malloc]ed array of [ARGSMAX] pointers is a list of that many
      slots; a slot is [None] until it is written.  A store outside the
      array, a [free] of a pointer that [malloc] did not return, and a
      read through a null pointer are undefined behaviour in C and are
      reported as such ([Undef]).
    - Allocation ([malloc], [strdup]) is taken to succeed.
    - The interpreter process is followed through [fork]; what the child
      does is recorded, as a script, in the event of the fork. *)

From Stdlib Require Import ZArith String Ascii List Lia Bool.
From stdpp Require Import base list.
From Equations Require Import Equations.

Import ListNotations.
Local Open Scope string_scope.
Local Open Scope Z_scope.

(** ** Constants of the source *)

Definition ARGSMAX : nat := 10.
Definition OPTSMAX : nat := 10.
Definition MAX_PATH_LEN : Z := 50000.

Definition CMD_CD : string := "cd".
Definition CMD_EXIT : string := "exit".
Definition _PARALLEL : string := "&&".
Definition _SEQUENTIAL : string := "##".
Definition _REDIRECTION : string := ">".
Definition _PIPELINE : string := "|".

Definition STD_PERMISSIONS : Z := 420. (* 0644 *)
Definition EXIT_SUCCESS : Z := 0.
Definition EXIT_FAILURE : Z := 1.

Definition ERR_GETCWD : string := "Error: Current working directory was not found".
Definition ERR_CHDIR : string := "Error: Was not able to change directory".
Definition ERR_FORK : string := "Error: Frok failed.".

(** ** Data model *)

(** A heap array of string pointers: [None] is a slot never written. *)
Abbreviation slots := (list (option string)).

Record _xcmf := mk_xcmf {
  _Command : option string;
  _Cmf_Len : Z;
  _Args : option slots;
  _Arg_Cnt : Z;
  _Opts : option slots;
  _Opt_Cnt : Z;
  redirection_file : option string
}.

Inductive execution_directive_t :=
| INIT | PARALLEL | SEQUENTIAL | TERMINATED | PIPELINE | EXCEPTION.

(** Undefined behaviour the embedding tracks. *)
Inductive undefined :=
| HeapOverflow   (* store past the end of a malloc'ed array *)
| InvalidFree    (* free of a pointer into the line buffer *)
| NullDeref.     (* read through a null pointer *)

Inductive result (A : Type) :=
| Ok (a : A)
| Undef (u : undefined).
Arguments Ok {A} a.
Arguments Undef {A} u.

Definition uint8 (z : Z) : Z := z mod 256.

(** ** The cursor tokenizer: [strsep(_command, " ")] *)

(** Splits at the first space: the token, and the rest of the line after
    the separator ([None] when no separator was found). *)
Fixpoint strsep_scan (s : string) : string * option string :=
  match s with
  | EmptyString => (EmptyString, None)
  | String c r =>
      if Ascii.eqb c " "%char then (EmptyString, Some r)
      else let '(t, rest) := strsep_scan r in (String c t, rest)
  end.

(** [strsep] on the cursor: the token returned (null on a null cursor)
    and the cursor afterwards. *)
Definition strsep (cur : option string) : option string * option string :=
  match cur with
  | None => (None, None)
  | Some s => let '(t, rest) := strsep_scan s in (Some t, rest)
  end.

Definition cursor_size (cur : option string) : nat :=
  match cur with
  | None => O
  | Some s => S (String.length s)
  end.

(** ** The frame parser *)

Definition null_frame : _xcmf :=
  mk_xcmf None 0 None 0 None 0 None.

Definition set_redirection (cmd : _xcmf) (r : option string) : _xcmf :=
  mk_xcmf (_Command cmd) (_Cmf_Len cmd) (_Args cmd) (_Arg_Cnt cmd)
          (_Opts cmd) (_Opt_Cnt cmd) r.

Definition set_command (cmd : _xcmf) (c : option string) : _xcmf :=
  mk_xcmf c (_Cmf_Len cmd) (_Args cmd) (_Arg_Cnt cmd)
          (_Opts cmd) (_Opt_Cnt cmd) (redirection_file cmd).

(** [arr[cnt] = v] on an array of pointers: in range it is stdpp's list
    insert, out of range the C store is a heap overflow. *)
Definition store_slot (arr : option slots) (cnt : Z) (v : string)
  : result (option slots) :=
  match arr with
  | None => Undef NullDeref
  | Some a =>
      if (cnt <? Z.of_nat (length a)) && (0 <=? cnt)
      then Ok (Some (<[Z.to_nat cnt := Some v]> a))
      else Undef HeapOverflow
  end.

(** [cmd->_Args[cmd->_Arg_Cnt++] = strdup(token)] *)
Definition push_arg (cmd : _xcmf) (token : string) : result _xcmf :=
  match store_slot (_Args cmd) (_Arg_Cnt cmd) token with
  | Undef u => Undef u
  | Ok a =>
      Ok (mk_xcmf (_Command cmd) (_Cmf_Len cmd) a (uint8 (_Arg_Cnt cmd + 1))
                  (_Opts cmd) (_Opt_Cnt cmd) (redirection_file cmd))
  end.

(** [cmd->_Opts[cmd->_Opt_Cnt++] = strdup(token)] *)
Definition push_opt (cmd : _xcmf) (token : string) : result _xcmf :=
  match store_slot (_Opts cmd) (_Opt_Cnt cmd) token with
  | Undef u => Undef u
  | Ok o =>
      Ok (mk_xcmf (_Command cmd) (_Cmf_Len cmd) (_Args cmd) (_Arg_Cnt cmd)
                  o (uint8 (_Opt_Cnt cmd + 1)) (redirection_file cmd))
  end.

(** [token[0] == '-'] *)
Definition starts_with_dash (token : string) : bool :=
  match token with
  | String c _ => Ascii.eqb c "-"%char
  | EmptyString => false
  end.

(** Index of the first ['>'] of a string, as the scan of lines 230-246
    finds it. *)
Fixpoint first_gt (s : string) : option nat :=
  match s with
  | EmptyString => None
  | String c r =>
      if Ascii.eqb c ">"%char then Some O
      else option_map S (first_gt r)
  end.

(** Lines 230-246: the scan of the command token for an embedded [>]. *)
Definition split_embedded (cmd : _xcmf) : result _xcmf :=
  match _Command cmd with
  | None => Undef NullDeref
  | Some ptr =>
      match first_gt ptr with
      | None => Ok cmd
      | Some i =>
          let cmd1 := set_command cmd (Some (substring 0 i ptr)) in
          if negb (Nat.eqb i (String.length ptr - 1))
          then Ok (set_redirection cmd1
                     (Some (substring (S i) (String.length ptr - S i) ptr)))
          else Ok cmd1
      end
  end.

Definition parsed : Type := execution_directive_t * _xcmf * option string.

Lemma strsep_scan_size s t r :
  strsep_scan s = (t, r) -> (cursor_size r <= String.length s)%nat.
Proof.
  revert t r. induction s as [|c s IH]; intros t r; simpl.
  - intros [= <- <-]. simpl. lia.
  - destruct (Ascii.eqb c " ").
    + intros [= <- <-]. simpl. lia.
    + destruct (strsep_scan s) as [t' r'] eqn:E.
      intros [= <- <-]. specialize (IH _ _ eq_refl). lia.
Qed.

Lemma strsep_size cur t r :
  strsep cur = (t, r) -> (cursor_size r <= cursor_size cur)%nat.
Proof.
  destruct cur as [s|]; simpl.
  - destruct (strsep_scan s) as [t' r'] eqn:E. intros [= <- <-].
    apply strsep_scan_size in E. lia.
  - intros [= <- <-]. simpl. lia.
Qed.

Lemma strsep_some_size cur t r :
  strsep cur = (Some t, r) -> (cursor_size r < cursor_size cur)%nat.
Proof.
  destruct cur as [s|]; simpl.
  - destruct (strsep_scan s) as [t' r'] eqn:E. intros [= <- <-].
    apply strsep_scan_size in E. lia.
  - intros [= ].
Qed.

Definition inspect {A : Type} (a : A) : {b : A | a = b} := exist _ a eq_refl.

(** The [while] loop of lines 195-227 followed by the scan of lines
    230-248.  Each turn takes one token off the cursor (two at a [>]), so
    the size of the cursor decreases. *)
Equations? parse_tokens (cmd : _xcmf) (cur : option string) : result parsed
  by wf (cursor_size cur) lt :=
parse_tokens cmd cur with inspect (strsep cur) := {
  | exist _ (None, cur1) _ =>
      match split_embedded cmd with
      | Undef u => Undef u
      | Ok cmd1 => Ok (TERMINATED, cmd1, cur1)
      end
  | exist _ (Some token, cur1) E1 =>
      if String.eqb token _PARALLEL then Ok (PARALLEL, cmd, cur1)
      else if String.eqb token _SEQUENTIAL then Ok (SEQUENTIAL, cmd, cur1)
      else if String.eqb token _PIPELINE then Ok (PIPELINE, cmd, cur1)
      else if String.eqb token _REDIRECTION then
        match push_arg cmd token with
        | Undef u => Undef u
        | Ok cmd1 =>
            match redirection_file cmd1 with
            | Some _ => Undef InvalidFree
            | None =>
                parse_tokens (set_redirection cmd1 (fst (strsep cur1)))
                             (snd (strsep cur1))
            end
        end
      else if starts_with_dash token then
        match push_opt cmd token with
        | Undef u => Undef u
        | Ok cmd1 => parse_tokens cmd1 cur1
        end
      else
        match push_arg cmd token with
        | Undef u => Undef u
        | Ok cmd1 => parse_tokens cmd1 cur1
        end
  }.
Proof.
  all: apply strsep_some_size in E1; try lia.
  pose proof (strsep_size cur1 _ _ (surjective_pairing _)). lia.
Qed.

(** Lines 178-187: the frame once the command token is stored and the
    two arrays are allocated. *)
Definition fresh_frame (token : string) : _xcmf :=
  mk_xcmf (Some token) (uint8 (Z.of_nat (String.length token)))
          (Some (replicate ARGSMAX None)) 0
          (Some (replicate OPTSMAX None)) 0 None.

(** [parseInput(&line, &cmd)]: the directive returned, the frame written
    and the cursor left behind. *)
Definition parseInput (_command : option string) : result parsed :=
  match _command with
  | None => Ok (EXCEPTION, null_frame, None)
  | Some _ =>
      match strsep _command with
      | (Some token, cur1) => parse_tokens (fresh_frame token) cur1
      | (None, cur1) => Ok (EXCEPTION, null_frame, cur1)
      end
  end.

(** The parser never moves the cursor backwards. *)
Lemma parse_tokens_cursor cmd cur d f cur1 :
  parse_tokens cmd cur = Ok (d, f, cur1) ->
  (cursor_size cur1 <= cursor_size cur)%nat.
Proof.
  funelim (parse_tokens cmd cur); intros Hp; clear Heqcall.
  - pose proof (strsep_some_size _ _ _ E1) as Hlt.
    destruct (String.eqb token _PARALLEL); [inversion Hp; subst; lia|].
    destruct (String.eqb token _SEQUENTIAL); [inversion Hp; subst; lia|].
    destruct (String.eqb token _PIPELINE); [inversion Hp; subst; lia|].
    destruct (String.eqb token _REDIRECTION).
    + destruct (push_arg cmd token) as [cmd1|]; [|discriminate].
      destruct (redirection_file cmd1); [discriminate|].
      apply H in Hp.
      pose proof (strsep_size cur1 _ _ (surjective_pairing _)). lia.
    + destruct (starts_with_dash token).
      * destruct (push_opt cmd token) as [cmd1|]; [|discriminate].
        apply H0 in Hp. lia.
      * destruct (push_arg cmd token) as [cmd1|]; [|discriminate].
        apply H0 in Hp. lia.
  - destruct (split_embedded cmd); inversion Hp; subst.
    pose proof (strsep_size _ _ _ e). lia.
Qed.

Definition loop_again (directive : execution_directive_t) : bool :=
  match directive with
  | TERMINATED | EXCEPTION => false
  | _ => true
  end.

(** A parse that lets the loop of main go on has taken at least one token. *)
Lemma parseInput_consumes cur d f cur1 :
  parseInput cur = Ok (d, f, cur1) ->
  loop_again d = true ->
  (cursor_size cur1 < cursor_size cur)%nat.
Proof.
  unfold parseInput. destruct cur as [l|]; [|intros [= <- <- <-]; discriminate].
  destruct (strsep (Some l)) as [[token|] c1] eqn:E.
  - intros Hp _. apply parse_tokens_cursor in Hp.
    apply strsep_some_size in E. lia.
  - intros [= <- <- <-]. discriminate.
Qed.

(** ** The interpreter process and its environment *)

(** What a forked child does, as far as the interpreter determines it. *)
Inductive child_op :=
| CRedirect (path : string) (mode : Z)
    (* open(path, O_CREAT|O_WRONLY|O_TRUNC, mode), dup2 onto stdout, close;
       exit(EXIT_FAILURE) when a step fails *)
| CClose (fd : Z)
| CDup2 (fd target : Z)
| CExecvp (file : option string) (argv : list string) (diagnostic : option string)
    (* execvp(file, argv); on failure the diagnostic, then exit(EXIT_FAILURE) *)
| CUndefined (u : undefined).

Inductive child :=
| ChildExec (script : list child_op)
    (* the child of an executor *)
| ChildShell (cmd : _xcmf).
    (* the child of the parallel branch of main: a copy of the interpreter
       that runs executeCommand(cmd), frees the frame and exits *)

(** System calls and output of the interpreter process, in order. *)
Inductive event :=
| EvFork (c : option child)          (* [None]: fork returned -1 *)
| EvWaitpid
| EvWaitAll                          (* while (wait(&status) > 0); *)
| EvPipe (fds : option (Z * Z))      (* [None]: pipe returned -1 *)
| EvClose (fd : Z)
| EvChdir (path : string) (ok : bool)
| EvPerror (msg : string)
| EvPrintf (msg : string).

(** The answers of the operating system. *)
Record environment := mk_environment {
  env_home : option string;
    (* getenv("HOME") *)
  env_chdir : option string -> string -> option (option string);
    (* chdir(path) from a directory reported as the first argument:
       [None] on failure, else what getcwd reports afterwards *)
  env_fork : nat -> bool;
    (* whether the n-th fork of the process succeeds *)
  env_pipe : nat -> option (Z * Z)
    (* the descriptors of the n-th pipe call, [None] on failure *)
}.

(** The state of the interpreter process: the two globals of the pipe
    relay, the working directory as getcwd reports it ([None] when getcwd
    fails), the number of fork and pipe calls made, and the events so
    far. *)
Record shell := mk_shell {
  is_piped : bool;
  _pipe_arr : Z * Z;
  cwd : option string;
  n_fork : nat;
  n_pipe : nat;
  trace : list event
}.

Definition emit (e : event) (s : shell) : shell :=
  mk_shell (is_piped s) (_pipe_arr s) (cwd s) (n_fork s) (n_pipe s)
           (trace s ++ [e]).

Definition set_is_piped (b : bool) (s : shell) : shell :=
  mk_shell b (_pipe_arr s) (cwd s) (n_fork s) (n_pipe s) (trace s).

Definition set_pipe_arr (p : Z * Z) (s : shell) : shell :=
  mk_shell (is_piped s) p (cwd s) (n_fork s) (n_pipe s) (trace s).

Definition set_cwd (d : option string) (s : shell) : shell :=
  mk_shell (is_piped s) (_pipe_arr s) d (n_fork s) (n_pipe s) (trace s).

Definition count_fork (s : shell) : shell :=
  mk_shell (is_piped s) (_pipe_arr s) (cwd s) (S (n_fork s)) (n_pipe s) (trace s).

Definition count_pipe (s : shell) : shell :=
  mk_shell (is_piped s) (_pipe_arr s) (cwd s) (n_fork s) (S (n_pipe s)) (trace s).

(** How a piece of the interpreter ends. *)
Inductive outcome :=
| Running (s : shell)             (* control goes on *)
| Broken (s : shell)              (* [break] out of the per-line loop *)
| Returned (code : Z) (s : shell) (* [return] from main *)
| Exited (code : Z) (s : shell)   (* [exit] *)
| Faulted (u : undefined) (s : shell).

(** ** The pipe relay *)

(** Lines 525-535. *)
Definition pipeReset (s : shell) : shell :=
  let s0 := set_is_piped false s in
  let s1 :=
    if negb (fst (_pipe_arr s0) =? -1)
    then set_pipe_arr (-1, snd (_pipe_arr s0)) (emit (EvClose (fst (_pipe_arr s0))) s0)
    else s0 in
  if negb (snd (_pipe_arr s1) =? -1)
  then set_pipe_arr (fst (_pipe_arr s1), -1) (emit (EvClose (snd (_pipe_arr s1))) s1)
  else s1.

(** The relay holds nothing: not armed, both ends closed. *)
Definition relay_idle (s : shell) : Prop :=
  is_piped s = false /\ _pipe_arr s = (-1, -1).

(** ** Building argv *)

(** [arr[i]] read as a string: [None] when the array is null, the index
    is outside it or the slot was never written. *)
Definition read_slot (arr : option slots) (i : nat) : option string :=
  match arr with
  | None => None
  | Some a =>
      match a !! i with
      | Some (Some v) => Some v
      | _ => None
      end
  end.

(** [for (i = 0; i < n; ++i) argv[arg_idx++] = arr[i];]
    (lines 322-324, 368-370 and 371-373), from index [i], [n] turns. *)
Fixpoint copy_slots (arr : option slots) (i n : nat) : option (list string) :=
  match n with
  | O => Some []
  | S n' =>
      match read_slot arr i with
      | None => None
      | Some v => option_map (cons v) (copy_slots arr (S i) n')
      end
  end.

(** Lines 325-330: as [copy_slots], with the [break] at the first slot
    equal to the redirection token. *)
Fixpoint copy_slots_until_redirection (arr : option slots) (i n : nat)
  : option (list string) :=
  match n with
  | O => Some []
  | S n' =>
      match read_slot arr i with
      | None => None
      | Some v =>
          if String.eqb v _REDIRECTION then Some []
          else option_map (cons v) (copy_slots_until_redirection arr (S i) n')
      end
  end.

(** argv of [executeCommand] (lines 318-331), without the closing null. *)
Definition argv_executeCommand (command_frame : _xcmf) : option (list string) :=
  match _Command command_frame,
        copy_slots (_Opts command_frame) 0 (Z.to_nat (_Opt_Cnt command_frame)),
        copy_slots_until_redirection (_Args command_frame) 0
          (Z.to_nat (_Arg_Cnt command_frame)) with
  | Some c, Some os, Some xs => Some (c :: os ++ xs)
  | _, _, _ => None
  end.

(** argv of [executeCommandPipe] (lines 364-374), without the closing null. *)
Definition argv_executeCommandPipe (command_frame : _xcmf) : option (list string) :=
  match _Command command_frame,
        copy_slots (_Opts command_frame) 0 (Z.to_nat (_Opt_Cnt command_frame)),
        copy_slots (_Args command_frame) 0 (Z.to_nat (_Arg_Cnt command_frame)) with
  | Some c, Some os, Some xs => Some (c :: os ++ xs)
  | _, _, _ => None
  end.

Definition STDIN_FILENO : Z := 0.
Definition STDOUT_FILENO : Z := 1.

(** The child of [executeCommand], lines 306-343. *)
Definition child_executeCommand (command_frame : _xcmf) (s : shell) : list child_op :=
  match redirection_file command_frame with
  | Some path => [CRedirect path STD_PERMISSIONS]
  | None => []
  end ++
  match argv_executeCommand command_frame with
  | None => [CUndefined NullDeref]
  | Some argv =>
      (if is_piped s
       then [CClose (snd (_pipe_arr s));
             CDup2 (fst (_pipe_arr s)) STDIN_FILENO;
             CClose (fst (_pipe_arr s))]
       else []) ++
      [CExecvp (_Command command_frame) argv (Some "Shell: Incorrect command")]
  end.

(** The child of [executeCommandPipe], lines 364-382. *)
Definition child_executeCommandPipe (command_frame : _xcmf) (s : shell) : list child_op :=
  match argv_executeCommandPipe command_frame with
  | None => [CUndefined NullDeref]
  | Some argv =>
      [CDup2 (snd (_pipe_arr s)) STDOUT_FILENO;
       CClose (snd (_pipe_arr s));
       CExecvp (_Command command_frame) argv None]
  end.

Section Interpreter.

Variable env : environment.

(** [fork()]: the parent's side. *)
Definition sys_fork (c : child) (s : shell) : bool * shell :=
  if env_fork env (n_fork s)
  then (true, emit (EvFork (Some c)) (count_fork s))
  else (false, emit (EvFork None) (count_fork s)).

(** ** The cd builtin *)

(** Lines 290-292. *)
Definition do_chdir (path : string) (s : shell) : shell :=
  match env_chdir env (cwd s) path with
  | Some d => set_cwd d (emit (EvChdir path true) s)
  | None => emit (EvPerror ERR_CHDIR) (emit (EvChdir path false) s)
  end.

(** Lines 265-274 and 277-286: the path joined in [abs_pth] by snprintf,
    which the function gives up on when it does not fit. *)
Definition join_cwd (suffix : string) (s : shell) : outcome :=
  match cwd s with
  | Some c =>
      let ret := Z.of_nat (String.length c + String.length suffix) in
      if ret >=? MAX_PATH_LEN then Running s
      else Running (do_chdir (c ++ suffix) s)
  | None => Running (emit (EvPerror ERR_GETCWD) s)
  end.

(** Lines 253-293.  The test [_Args[0] == null] of line 258 can hold
    only for a slot whose [strdup] failed, which the embedding leaves
    out; a slot never written cannot be read. *)
Definition changeDirectory (command_frame : _xcmf) (s : shell) : outcome :=
  if _Arg_Cnt command_frame =? 0 then
    match env_home env with
    | None => Running s
    | Some path => Running (do_chdir path s)
    end
  else
    match read_slot (_Args command_frame) 0 with
    | None => Faulted NullDeref s
    | Some arg =>
        if String.eqb arg ".." then join_cwd "/.." s
        else join_cwd ("/" ++ arg) s
    end.

(** ** The executors *)

(** Lines 296-350, the parent's side; the child is
    [child_executeCommand]. *)
Definition executeCommand (command_frame : _xcmf) (s : shell) : outcome :=
  match _Command command_frame with
  | None => Running s
  | Some c =>
      if Nat.eqb (String.length c) 0 then Running s
      else
        match sys_fork (ChildExec (child_executeCommand command_frame s)) s with
        | (false, s1) => Exited EXIT_FAILURE (emit (EvPerror ERR_FORK) s1)
        | (true, s1) => Running (pipeReset (emit EvWaitpid s1))
        end
  end.

(** Lines 354-391, the parent's side; the child is
    [child_executeCommandPipe]. *)
Definition executeCommandPipe (command_frame : _xcmf) (s : shell) : outcome :=
  match env_pipe env (n_pipe s) with
  | None => Exited EXIT_FAILURE (emit (EvPipe None) (count_pipe s))
  | Some fds =>
      let s1 := set_pipe_arr fds (emit (EvPipe (Some fds)) (count_pipe s)) in
      match sys_fork (ChildExec (child_executeCommandPipe command_frame s1)) s1 with
      | (false, s2) => Exited EXIT_FAILURE (emit (EvPerror ERR_FORK) s2)
      | (true, s2) =>
          Running (set_is_piped true
                     (emit EvWaitpid (emit (EvClose (snd (_pipe_arr s2))) s2)))
      end
  end.

(** ** The per-line loop of main *)

(** Lines 455-512: what the loop body does with a parsed frame; [line]
    is the cursor that the parse left in the variable of main.  The exit
    branch ends with [free(line)] (line 469): after a parse that left
    tokens behind, [line] points into the buffer of getline, past its
    start, and the call frees a pointer that is not an allocation. *)
Definition dispatch (directive : execution_directive_t) (cmd : _xcmf)
  (line : option string) (s : shell) : outcome :=
  match _Command cmd with
  | None => Faulted NullDeref s    (* strcmp(cmd._Command, CMD_CD) *)
  | Some c =>
      if String.eqb c CMD_CD then changeDirectory cmd s
      else if String.eqb c CMD_EXIT then
        match line with
        | None => Returned 0 (emit (EvPrintf "Exiting shell...") s)
        | Some _ => Faulted InvalidFree (emit (EvPrintf "Exiting shell...") s)
        end
      else
        match directive with
        | PARALLEL =>
            match sys_fork (ChildShell cmd) s with
            | (true, s1) => Running s1                       (* continue *)
            | (false, s1) => Broken (emit (EvPerror ERR_FORK) s1)
            end
        | PIPELINE => executeCommandPipe cmd s
        | _ => executeCommand cmd s
        end
  end.

(** Lines 516-519, after the loop. *)
Definition after_loop (directive : execution_directive_t) (s : shell) : shell :=
  match directive with
  | PARALLEL => emit EvWaitAll s
  | _ => s
  end.

(** The do-while loop of lines 451-514 and the wait of lines 516-519.
    [Running] here is the end of the body of the outer loop. *)
Equations? run_line (cur : option string) (s : shell) : outcome
  by wf (cursor_size cur) lt :=
run_line cur s with inspect (parseInput cur) := {
  | exist _ (Undef u) _ => Faulted u s
  | exist _ (Ok (directive, cmd, cur1)) E with inspect (loop_again directive) := {
    | exist _ true L =>
        match dispatch directive cmd cur1 s with
        | Running s1 => run_line cur1 s1
        | Broken s1 => Running (after_loop directive s1)
        | o => o
        end
    | exist _ false _ =>
        match dispatch directive cmd cur1 s with
        | Running s1 => Running (after_loop directive s1)
        | Broken s1 => Running (after_loop directive s1)
        | o => o
        end } }.
Proof.
  eapply parseInput_consumes; eauto.
Qed.

End Interpreter.

(** The events a piece of code added to the trace. *)
Definition new_events (before after : shell) : list event :=
  drop (length (trace before)) (trace after).

(** The token of a directive that names a control operator. *)
Definition operator_token (d : execution_directive_t) : option string :=
  match d with
  | PARALLEL => Some _PARALLEL
  | SEQUENTIAL => Some _SEQUENTIAL
  | PIPELINE => Some _PIPELINE
  | _ => None
  end.

(** The longest prefix of a list of arguments without the redirection
    token. *)
Fixpoint before_redirection (args : list string) : list string :=
  match args with
  | [] => []
  | a :: rest =>
      if String.eqb a _REDIRECTION then [] else a :: before_redirection rest
  end.

(** An array of [cap] slots with count [cnt] holds the strings [xs]: the
    count is their number and slot [k] is the [k]-th of them, in the
    order of the stores. *)
Definition holds (arr : option slots) (cnt : Z) (cap : nat) (xs : list string)
  : Prop :=
  exists a, arr = Some a /\ length a = cap /\ cnt = Z.of_nat (length xs) /\
            forall k x, xs !! k = Some x -> a !! k = Some (Some x).

(** The line ends in the given token, which a space sets off from what
    comes before, or is that token alone. *)
Definition ends_with_token (cur : option string) (op : string) : Prop :=
  cur = Some op \/ exists pre, cur = Some (pre ++ " " ++ op)%string.

(** The loop of main gets from one turn to a later one: every frame in
    between is parsed with a directive that keeps the loop going and its
    dispatch returns to the loop. *)
Inductive loop_reaches (env : environment)
  : option string -> shell -> option string -> shell -> Prop :=
| reaches_here cur s : loop_reaches env cur s cur s
| reaches_turn cur s d f cur1 s1 cur2 s2 :
    parseInput cur = Ok (d, f, cur1) ->
    loop_again d = true ->
    dispatch env d f cur1 s = Running s1 ->
    loop_reaches env cur1 s1 cur2 s2 ->
    loop_reaches env cur s cur2 s2.

(** The argument of a cd frame: its first positional argument, if it
    has one. *)
Definition cd_argument (f : _xcmf) : option string :=
  if _Arg_Cnt f =? 0 then None else read_slot (_Args f) 0.

(** The target of cd in the words of the specification: home without an
    argument, the working directory joined with [/..] for the argument
    [..], and joined with [/] and the argument otherwise. *)
Definition cd_target (home : option string) (c : string) (argument : option string)
  : option string :=
  match argument with
  | None => home
  | Some a =>
      if String.eqb a ".." then Some (c ++ "/..")%string
      else Some (c ++ "/" ++ a)%string
  end.

(** A frame whose first argument can be read when it has one, as every
    frame of the parser is. *)
Definition argument_readable (f : _xcmf) : Prop :=
  _Arg_Cnt f = 0 \/ exists a, read_slot (_Args f) 0 = Some a.

(** The joined path fits the buffer [abs_pth]. *)
Definition path_fits (c : string) (argument : option string) : Prop :=
  match argument with
  | None => True
  | Some a => Z.of_nat (String.length c + 1 + String.length a) < MAX_PATH_LEN
  end.

(** The interpreter after [chdir(target)]: on success one chdir event and
    the new directory; on failure the directory kept and the diagnostic
    after the failed call. *)
Definition chdir_outcome (env : environment) (target : string) (s s' : shell) : Prop :=
  match env_chdir env (cwd s) target with
  | Some d =>
      cwd s' = d /\ new_events s s' = [EvChdir target true]
  | None =>
      cwd s' = cwd s /\
      new_events s s' = [EvChdir target false; EvPerror ERR_CHDIR]
  end.

(** A frame that the loop of main hands to a [fork]: not a builtin, and
    not an empty command on the synchronous path. *)
Definition forks_on_dispatch (d : execution_directive_t) (c : string) : Prop :=
  c <> CMD_CD /\ c <> CMD_EXIT /\
  (c = "" -> d = PARALLEL \/ d = PIPELINE).

(** The directives of the three control operators. *)
Definition is_control (d : execution_directive_t) : bool :=
  match d with
  | PARALLEL | SEQUENTIAL | PIPELINE => true
  | _ => false
  end.

(** Reads off the events a piece of code added to the trace. *)
Ltac events_added :=
  unfold new_events; simpl; rewrite <- ?app_assoc, drop_app_length;
  simpl; auto.

(** Whether a string holds a separator. *)
Fixpoint has_space (s : string) : bool :=
  match s with
  | EmptyString => false
  | String c r => Ascii.eqb c " "%char || has_space r
  end.

(** A token that the loop of the parser stores as a positional argument:
    not an operator, not the redirection token, not an option. *)
Definition plain_argument (a : string) : bool :=
  negb (String.eqb a _PARALLEL) && negb (String.eqb a _SEQUENTIAL) &&
  negb (String.eqb a _PIPELINE) && negb (String.eqb a _REDIRECTION) &&
  negb (starts_with_dash a).

(** ** Concrete frames, environments and states *)

(** The frame written by the parse of a line. *)
Definition parsed_frame (line : string) : _xcmf :=
  match parseInput (Some line) with
  | Ok (_, f, _) => f
  | Undef _ => null_frame
  end.

Definition state_of (o : outcome) : shell :=
  match o with
  | Running s | Broken s | Returned _ s | Exited _ s | Faulted _ s => s
  end.

(** An operating system where every call succeeds: chdir accepts every
    path and getcwd then reports it as given, the n-th pipe call returns
    the descriptors 3 + 2n and 4 + 2n. *)
Definition env_ok : environment :=
  mk_environment (Some "/home/u") (fun _ path => Some (Some path))
                 (fun _ => true)
                 (fun n => Some (3 + 2 * Z.of_nat n, 4 + 2 * Z.of_nat n)).

(** The same, out of processes: every fork fails. *)
Definition env_no_fork : environment :=
  mk_environment (Some "/home/u") (fun _ path => Some (Some path))
                 (fun _ => false)
                 (fun n => Some (3 + 2 * Z.of_nat n, 4 + 2 * Z.of_nat n)).

(** The interpreter at its first prompt, after the [pipeReset] of main. *)
Definition initial_shell : shell :=
  mk_shell false (-1, -1) (Some "/home/u/work") 0 0 [].

Fixpoint repeat_char (c : ascii) (n : nat) : string :=
  match n with
  | O => EmptyString
  | S n' => String c (repeat_char c n')
  end.

(** A directory name of 49990 letters. *)
Definition long_name : string := repeat_char "a"%char (Z.to_nat 49990).

(** The frame of the line "cd " followed by [long_name]. *)
Definition long_cd_frame : _xcmf :=
  mk_xcmf (Some "cd") 2
          (Some (<[0%nat := Some long_name]> (replicate ARGSMAX None))) 1
          (Some (replicate OPTSMAX None)) 0 None.

(** ** The preparation of a line in main, and the trimming functions *)

(** Line 399: the index at which the scan of [leftTrim] stops.  The
    terminator at index [len] is not a space, so the scan stops there at
    the latest. *)
Fixpoint leading_spaces (str : string) : nat :=
  match str with
  | EmptyString => O
  | String c r => if Ascii.eqb c " "%char then S (leading_spaces r) else O
  end.

(** Lines 396-405: [memmove(str, str + i, len - i + 1)] when [i > 0]. *)
Definition leftTrim (str : string) : string :=
  let len := String.length str in
  let i := leading_spaces str in
  if (0 <? i)%nat then substring i (len - i) str else str.

(** Lines 412-415: the scan of [rightTrim] from index [n - 1] down; the
    result is [last_idx + 1] when the loop is left. *)
Fixpoint rightTrim_scan (str : string) (n : nat) : nat :=
  match n with
  | O => O
  | S k =>
      match String.get k str with
      | Some c => if Ascii.eqb c " "%char then rightTrim_scan str k else n
      | None => n
      end
  end.

(** Lines 408-416: a terminator is written over every trailing space, so
    the string ends after the last character that is not one. *)
Definition rightTrim (str : string) : string :=
  substring 0 (rightTrim_scan str (String.length str)) str.

(** Lines 443-445, on the text that getline returned ([read] is its
    length, at least 1): a final newline is overwritten by a terminator. *)
Definition strip_newline (text : string) : string :=
  let read := String.length text in
  match String.get (read - 1) text with
  | Some c =>
      if Ascii.eqb c "010"%char then substring 0 (read - 1) text else text
  | None => text
  end.

(** Lines 443-448: the line handed to the parser. *)
Definition prepare_line (text : string) : string :=
  rightTrim (leftTrim (strip_newline text)).

(** [n] spaces. *)
Fixpoint spaces (n : nat) : string :=
  match n with
  | O => EmptyString
  | S k => String " "%char (spaces k)
  end.

(** Whether the first, and the last, character of a string is a space. *)
Definition starts_with_space (s : string) : bool :=
  match s with
  | String c _ => Ascii.eqb c " "%char
  | EmptyString => false
  end.

Fixpoint ends_with_space (s : string) : bool :=
  match s with
  | EmptyString => false
  | String c EmptyString => Ascii.eqb c " "%char
  | String _ r => ends_with_space r
  end.

(** ** Lines as lists of tokens *)

(** The tokens of a line put back together, one space between two. *)
Fixpoint join_tokens (toks : list string) : string :=
  match toks with
  | [] => EmptyString
  | [t] => t
  | t :: rest => (t ++ " " ++ join_tokens rest)%string
  end.

(** The cursor in front of a list of tokens: null when none is left. *)
Definition cursor_of (toks : list string) : option string :=
  match toks with
  | [] => None
  | _ => Some (join_tokens toks)
  end.

(** A token that the loop of the parser stores, as an option or as an
    argument: neither a control operator nor the redirection token. *)
Definition storable (t : string) : bool :=
  negb (String.eqb t _PARALLEL) && negb (String.eqb t _SEQUENTIAL) &&
  negb (String.eqb t _PIPELINE) && negb (String.eqb t _REDIRECTION).

(** The options and the positional arguments among stored tokens. *)
Definition options_of (toks : list string) : list string :=
  List.filter starts_with_dash toks.

Definition arguments_of (toks : list string) : list string :=
  List.filter (fun t => negb (starts_with_dash t)) toks.

(** The frame carries a command and its arrays hold [opts] and [args]. *)
Definition frame_holds (f : _xcmf) (c : string) (opts args : list string) : Prop :=
  _Command f = Some c /\
  holds (_Opts f) (_Opt_Cnt f) OPTSMAX opts /\
  holds (_Args f) (_Arg_Cnt f) ARGSMAX args.

(** What a cursor adds after a token: the separator and the rest of the
    line, or nothing when the cursor is null. *)
Definition cursor_suffix (r : option string) : string :=
  match r with
  | Some rest => (" " ++ rest)%string
  | None => EmptyString
  end.

(** What a builtin may do to the interpreter: change directory, write a
    diagnostic or a message, and nothing to the relay or to the counts
    of forks and pipes. *)
Definition builtin_effect (s s' : shell) : Prop :=
  (forall e, In e (new_events s s') ->
             match e with
             | EvChdir _ _ | EvPerror _ | EvPrintf _ => True
             | _ => False
             end) /\
  is_piped s' = is_piped s /\ _pipe_arr s' = _pipe_arr s /\
  n_fork s' = n_fork s /\ n_pipe s' = n_pipe s.


(** The interpreter at its first prompt in a directory that getcwd cannot
    report. *)
Definition lost_shell : shell :=
  mk_shell false (-1, -1) None 0 0 [].

(** Stored tokens without a separator in them. *)
Definition stored_tokens (toks : list string) : Prop :=
  Forall (fun t => has_space t = false /\ storable t = true) toks.


(** The close calls of a reset: one for each descriptor that the relay
    stores, the read end first. *)
Definition reset_closes (s : shell) : list event :=
  ((if fst (_pipe_arr s) =? -1 then [] else [EvClose (fst (_pipe_arr s))]) ++
   (if snd (_pipe_arr s) =? -1 then [] else [EvClose (snd (_pipe_arr s))]))%list.

(** * Properties *)

(** ** The pipe relay *)

Lemma pipeReset_idle (s : shell) : relay_idle (pipeReset s).
Proof.
  destruct s as [p [a b] c nf np t]. unfold relay_idle, pipeReset. simpl.
  destruct (a =? -1) eqn:Ea, (b =? -1) eqn:Eb; simpl;
    rewrite ?Ea, ?Eb; simpl; split; try reflexivity;
    apply Z.eqb_eq in Ea || idtac; apply Z.eqb_eq in Eb || idtac;
    congruence.
Qed.

Lemma pipeReset_of_idle (s : shell) : relay_idle s -> pipeReset s = s.
Proof.
  destruct s as [p [a b] c nf np t]. unfold relay_idle. simpl.
  intros [-> [= -> ->]]. reflexivity.
Qed.

Lemma new_events_same (s : shell) : new_events s s = [].
Proof. unfold new_events. apply drop_all. Qed.

(** C6. Resetting the pipe relay is idempotent: from every state a second
    reset right after a first one changes nothing (same flag, same
    descriptors, same trace), so it performs no close at all, and in
    particular no descriptor closed by the first reset is closed again by
    the second. *)
Theorem C6_pipeReset_idempotent (s : shell) :
  pipeReset (pipeReset s) = pipeReset s /\
  new_events (pipeReset s) (pipeReset (pipeReset s)) = [] /\
  (forall fd, In (EvClose fd) (new_events s (pipeReset s)) ->
              ~ In (EvClose fd) (new_events (pipeReset s) (pipeReset (pipeReset s)))).
Proof.
  assert (H : pipeReset (pipeReset s) = pipeReset s)
    by (apply pipeReset_of_idle, pipeReset_idle).
  split; [exact H|]. rewrite H, new_events_same.
  split; [reflexivity|]. intros fd _ [].
Qed.

(** ** The frame parser *)

(** C2. As stated the claim fails on the empty string: the parse of an
    empty line does not fail.  [strsep] hands back the empty token, which
    becomes the command, and the directive is [TERMINATED]. *)
Lemma C2_empty_line_is_parsed :
  parseInput (Some "") = Ok (TERMINATED, fresh_frame "", None) /\
  _Command (fresh_frame "") = Some "" /\
  (forall f cur, parseInput (Some "") <> Ok (EXCEPTION, f, cur)).
Proof.
  assert (H : parseInput (Some "") = Ok (TERMINATED, fresh_frame "", None))
    by (vm_compute; reflexivity).
  split; [exact H|]. split; [reflexivity|].
  intros f cur. rewrite H. discriminate.
Qed.

(** C2, amended. On a null cursor (an exhausted line) [parseInput]
    returns [EXCEPTION] with no field of the frame populated; on the empty
    string it returns [TERMINATED] with the empty string as command, both
    arrays allocated and empty, and the cursor null. *)
Theorem C2_parse_null_and_empty :
  parseInput None = Ok (EXCEPTION, null_frame, None) /\
  _Command null_frame = None /\
  parseInput (Some "") =
    Ok (TERMINATED,
        mk_xcmf (Some "") 0 (Some (replicate ARGSMAX None)) 0
                (Some (replicate OPTSMAX None)) 0 None,
        None).
Proof. repeat split; vm_compute; reflexivity. Qed.

(** C4. The parse of "ls > out.txt" and the parse of "ls>out.txt" both
    return [TERMINATED] with command "ls" and redirection target
    "out.txt"; in the second the loop stores nothing and the target comes
    from the scan of the command token for an embedded [>]. *)
Theorem C4_redirection_spaced_and_embedded :
  exists f1 f2,
    parseInput (Some "ls > out.txt") = Ok (TERMINATED, f1, None) /\
    parseInput (Some "ls>out.txt") = Ok (TERMINATED, f2, None) /\
    _Command f1 = Some "ls" /\ redirection_file f1 = Some "out.txt" /\
    _Command f2 = Some "ls" /\ redirection_file f2 = Some "out.txt" /\
    split_embedded (fresh_frame "ls>out.txt") = Ok f2 /\
    redirection_file (fresh_frame "ls>out.txt") = None.
Proof.
  eexists. eexists.
  split; [vm_compute; reflexivity|].
  split; [vm_compute; reflexivity|].
  repeat split; vm_compute; reflexivity.
Qed.

(** A store at the capacity of the array is outside it. *)
Lemma push_arg_full (cmd : _xcmf) (a : slots) (token : string) :
  _Args cmd = Some a -> length a = ARGSMAX -> _Arg_Cnt cmd = Z.of_nat ARGSMAX ->
  push_arg cmd token = Undef HeapOverflow.
Proof.
  intros Ha Hl Hc. unfold push_arg, store_slot. rewrite Ha, Hc, Hl.
  rewrite Z.ltb_irrefl. reflexivity.
Qed.

Lemma push_opt_full (cmd : _xcmf) (a : slots) (token : string) :
  _Opts cmd = Some a -> length a = OPTSMAX -> _Opt_Cnt cmd = Z.of_nat OPTSMAX ->
  push_opt cmd token = Undef HeapOverflow.
Proof.
  intros Ha Hl Hc. unfold push_opt, store_slot. rewrite Ha, Hc, Hl.
  rewrite Z.ltb_irrefl. reflexivity.
Qed.

(** C8. The code at a frame with eleven positional arguments, and at one
    with eleven options: ten tokens fill the array, and the eleventh is
    stored at index 10 of an array of 10 slots.  Nothing is truncated;
    the store is outside the allocation. *)
Theorem C8_eleventh_token_overflows :
  (exists f, parseInput (Some "echo 1 2 3 4 5 6 7 8 9 10") = Ok (TERMINATED, f, None) /\
             _Arg_Cnt f = Z.of_nat ARGSMAX /\
             push_arg f "11" = Undef HeapOverflow) /\
  parseInput (Some "echo 1 2 3 4 5 6 7 8 9 10 11") = Undef HeapOverflow /\
  parseInput (Some "ls -a -b -c -d -e -f -g -h -i -j -k") = Undef HeapOverflow.
Proof.
  split; [|split; vm_compute; reflexivity].
  eexists. split; [vm_compute; reflexivity|].
  split; vm_compute; reflexivity.
Qed.

(** *** The loop of the parser, one turn unfolded *)

Lemma parse_tokens_step (cmd : _xcmf) (cur : option string) :
  parse_tokens cmd cur =
  match strsep cur with
  | (None, cur1) =>
      match split_embedded cmd with
      | Undef u => Undef u
      | Ok cmd1 => Ok (TERMINATED, cmd1, cur1)
      end
  | (Some token, cur1) =>
      if String.eqb token _PARALLEL then Ok (PARALLEL, cmd, cur1)
      else if String.eqb token _SEQUENTIAL then Ok (SEQUENTIAL, cmd, cur1)
      else if String.eqb token _PIPELINE then Ok (PIPELINE, cmd, cur1)
      else if String.eqb token _REDIRECTION then
        match push_arg cmd token with
        | Undef u => Undef u
        | Ok cmd1 =>
            match redirection_file cmd1 with
            | Some _ => Undef InvalidFree
            | None =>
                parse_tokens (set_redirection cmd1 (fst (strsep cur1)))
                             (snd (strsep cur1))
            end
        end
      else if starts_with_dash token then
        match push_opt cmd token with
        | Undef u => Undef u
        | Ok cmd1 => parse_tokens cmd1 cur1
        end
      else
        match push_arg cmd token with
        | Undef u => Undef u
        | Ok cmd1 => parse_tokens cmd1 cur1
        end
  end.
Proof.
  funelim (parse_tokens cmd cur); clear Heqcall;
    match goal with He : strsep _ = _ |- _ => rewrite He end; reflexivity.
Qed.

Lemma strsep_scan_token (t r : string) :
  has_space t = false -> strsep_scan (t ++ " " ++ r) = (t, Some r).
Proof.
  induction t as [|c t IH]; simpl; [reflexivity|].
  intros H. apply orb_false_iff in H as [Hc Ht]. rewrite Hc.
  specialize (IH Ht). simpl in IH. rewrite IH. reflexivity.
Qed.

Lemma strsep_scan_whole (t : string) :
  has_space t = false -> strsep_scan t = (t, None).
Proof.
  induction t as [|c t IH]; simpl; [reflexivity|].
  intros H. apply orb_false_iff in H as [Hc Ht]. rewrite Hc, (IH Ht). reflexivity.
Qed.

(** A command followed by one plain argument. *)
Lemma parseInput_one_argument (c a : string) :
  has_space c = false -> first_gt c = None ->
  has_space a = false -> plain_argument a = true ->
  parseInput (Some (c ++ " " ++ a)) =
  Ok (TERMINATED,
      mk_xcmf (Some c) (uint8 (Z.of_nat (String.length c)))
              (Some (<[0%nat := Some a]> (replicate ARGSMAX None))) 1
              (Some (replicate OPTSMAX None)) 0 None,
      None).
Proof.
  intros Hc Hgt Ha Hp. unfold plain_argument in Hp.
  repeat (apply andb_prop in Hp as [Hp ?]).
  repeat match goal with H : negb _ = true |- _ => apply negb_true_iff in H end.
  unfold parseInput, strsep. rewrite (strsep_scan_token c a Hc).
  rewrite parse_tokens_step. unfold strsep. rewrite (strsep_scan_whole a Ha).
  repeat match goal with H : _ = false |- _ => rewrite H; clear H end.
  unfold push_arg, fresh_frame. simpl.
  rewrite parse_tokens_step. simpl. unfold split_embedded. simpl.
  rewrite Hgt. reflexivity.
Qed.

(** *** A control directive with the cursor exhausted *)

Lemma string_app_assoc (a b c : string) :
  ((a ++ b) ++ c = a ++ (b ++ c))%string.
Proof. induction a as [|x a IH]; simpl; congruence. Qed.

Lemma strsep_scan_join s t r :
  strsep_scan s = (t, Some r) -> s = (t ++ " " ++ r)%string.
Proof.
  revert t. induction s as [|c s IH]; intros t; simpl; [discriminate|].
  destruct (Ascii.eqb c " ") eqn:Ec.
  - intros [= <- <-]. apply Ascii.eqb_eq in Ec. subst c. reflexivity.
  - destruct (strsep_scan s) as [t' r'] eqn:E. intros [= <- ->].
    simpl. f_equal. apply IH. reflexivity.
Qed.

Lemma strsep_scan_last s t :
  strsep_scan s = (t, None) -> s = t.
Proof.
  revert t. induction s as [|c s IH]; intros t; simpl.
  - intros [= <-]. reflexivity.
  - destruct (Ascii.eqb c " "); [discriminate|].
    destruct (strsep_scan s) as [t' r'] eqn:E. intros [= <- ->].
    f_equal. apply IH. reflexivity.
Qed.

Lemma ends_with_token_after s t r op :
  strsep_scan s = (t, r) -> ends_with_token r op ->
  exists pre, s = (pre ++ " " ++ op)%string.
Proof.
  intros E [->|[pre ->]]; apply strsep_scan_join in E; subst s.
  - exists t. reflexivity.
  - exists (t ++ " " ++ pre)%string. now rewrite !string_app_assoc.
Qed.

(** When the loop returns a control directive and leaves the cursor null,
    the operator was the last token of what it was given. *)
Lemma parse_tokens_trailing cmd cur d f op :
  parse_tokens cmd cur = Ok (d, f, None) ->
  operator_token d = Some op ->
  ends_with_token cur op.
Proof.
  funelim (parse_tokens cmd cur); intros Hp Hop; clear Heqcall;
    match goal with Hs : @eq (sigma _) _ _ |- _ => clear Hs end.
  - destruct cur as [l|]; [|discriminate]. simpl in E1.
    destruct (strsep_scan l) as [t r] eqn:El. injection E1 as -> ->.
    assert (Hstep : forall cmd1,
               parse_tokens cmd1 cur1 = Ok (d, f, None) ->
               ends_with_token (Some l) op).
    { intros cmd1 Hp1. pose proof (H0 _ _ _ _ Hp1 Hop) as Hend.
      destruct (ends_with_token_after _ _ _ _ El Hend) as [pre ->].
      right. exists pre. reflexivity. }
    destruct (String.eqb token _PARALLEL) eqn:E.
    { injection Hp as <- <- ->. apply String.eqb_eq in E.
      injection Hop as <-. apply strsep_scan_last in El. left. congruence. }
    clear E. destruct (String.eqb token _SEQUENTIAL) eqn:E.
    { injection Hp as <- <- ->. apply String.eqb_eq in E.
      injection Hop as <-. apply strsep_scan_last in El. left. congruence. }
    clear E. destruct (String.eqb token _PIPELINE) eqn:E.
    { injection Hp as <- <- ->. apply String.eqb_eq in E.
      injection Hop as <-. apply strsep_scan_last in El. left. congruence. }
    clear E. destruct (String.eqb token _REDIRECTION).
    + destruct (push_arg cmd token) as [cmd1|]; [|discriminate].
      destruct (redirection_file cmd1); [discriminate|].
      pose proof (H _ _ _ _ Hp Hop) as Hend. clear Hp. rename Hend into Hp.
      destruct cur1 as [l1|]; simpl in Hp.
      * destruct (strsep_scan l1) as [t1 r1] eqn:El1. simpl in Hp.
        destruct (ends_with_token_after _ _ _ _ El1 Hp) as [pre1 ->].
        apply strsep_scan_join in El. subst l.
        right. exists (token ++ " " ++ pre1)%string.
        now rewrite !string_app_assoc.
      * destruct Hp as [Hp|[pre Hp]]; discriminate.
    + destruct (starts_with_dash token).
      * destruct (push_opt cmd token) as [cmd1|]; [|discriminate]. eauto.
      * destruct (push_arg cmd token) as [cmd1|]; [|discriminate]. eauto.
  - destruct (split_embedded cmd); [|discriminate].
    injection Hp as <- _ _. discriminate.
Qed.

Lemma parseInput_trailing line d f op :
  parseInput (Some line) = Ok (d, f, None) ->
  operator_token d = Some op ->
  exists pre, line = (pre ++ " " ++ op)%string.
Proof.
  unfold parseInput, strsep.
  destruct (strsep_scan line) as [t r] eqn:El. intros Hp Hop.
  eapply ends_with_token_after; [exact El|].
  eapply parse_tokens_trailing; eauto.
Qed.

Lemma ends_with_token_trans l pre r op :
  l = (pre ++ " " ++ r)%string -> ends_with_token (Some r) op ->
  ends_with_token (Some l) op.
Proof.
  intros -> [[= ->]|[pre' [= ->]]]; right.
  - exists pre. reflexivity.
  - exists (pre ++ " " ++ pre')%string. now rewrite !string_app_assoc.
Qed.

(** What the loop leaves in the cursor is the end of what it was given,
    after a separator. *)
Lemma parse_tokens_rest cmd cur d f r :
  parse_tokens cmd cur = Ok (d, f, Some r) ->
  ends_with_token cur r.
Proof.
  funelim (parse_tokens cmd cur); intros Hp; clear Heqcall;
    match goal with Hs : @eq (sigma _) _ _ |- _ => clear Hs end.
  - destruct cur as [l|]; [|discriminate]. simpl in E1.
    destruct (strsep_scan l) as [t r0] eqn:El. injection E1 as -> ->.
    assert (Hctl : cur1 = Some r -> ends_with_token (Some l) r).
    { intros ->. apply strsep_scan_join in El. right. exists token. congruence. }
    assert (Hstep : forall cmd1,
               parse_tokens cmd1 cur1 = Ok (d, f, Some r) ->
               ends_with_token (Some l) r).
    { intros cmd1 Hp1. pose proof (H0 _ _ _ _ Hp1) as Hend.
      destruct (ends_with_token_after _ _ _ _ El Hend) as [pre ->].
      right. exists pre. reflexivity. }
    destruct (String.eqb token _PARALLEL); [injection Hp as _ _ ->; auto|].
    destruct (String.eqb token _SEQUENTIAL); [injection Hp as _ _ ->; auto|].
    destruct (String.eqb token _PIPELINE); [injection Hp as _ _ ->; auto|].
    destruct (String.eqb token _REDIRECTION).
    + destruct (push_arg cmd token) as [cmd1|]; [|discriminate].
      destruct (redirection_file cmd1); [discriminate|].
      pose proof (H _ _ _ _ Hp) as Hend. clear Hp.
      destruct cur1 as [l1|]; simpl in Hend.
      * destruct (strsep_scan l1) as [t1 r1] eqn:El1. simpl in Hend.
        destruct (ends_with_token_after _ _ _ _ El1 Hend) as [pre1 ->].
        apply strsep_scan_join in El. subst l.
        right. exists (token ++ " " ++ pre1)%string.
        now rewrite !string_app_assoc.
      * destruct Hend as [Hend|[pre Hend]]; discriminate.
    + destruct (starts_with_dash token).
      * destruct (push_opt cmd token) as [cmd1|]; [|discriminate]. eauto.
      * destruct (push_arg cmd token) as [cmd1|]; [|discriminate]. eauto.
  - destruct cur as [l|]; simpl in e.
    + destruct (strsep_scan l); discriminate.
    + injection e as <-. destruct (split_embedded cmd); discriminate.
Qed.

Lemma parseInput_rest line d f r :
  parseInput (Some line) = Ok (d, f, Some r) ->
  exists pre, line = (pre ++ " " ++ r)%string.
Proof.
  unfold parseInput, strsep.
  destruct (strsep_scan line) as [t r0] eqn:El. intros Hp.
  eapply ends_with_token_after; [exact El|].
  eapply parse_tokens_rest; eauto.
Qed.

(** ** Building argv *)

Lemma copy_slots_until_redirection_spec arr n : forall i args,
  copy_slots arr i n = Some args ->
  copy_slots_until_redirection arr i n = Some (before_redirection args).
Proof.
  induction n as [|n IH]; intros i args; simpl.
  - intros [= <-]. reflexivity.
  - destruct (read_slot arr i) as [v|]; [|discriminate].
    destruct (copy_slots arr (S i) n) as [rest|] eqn:E; [|discriminate].
    intros [= <-]. simpl. destruct (String.eqb v _REDIRECTION); [reflexivity|].
    rewrite (IH _ _ E). reflexivity.
Qed.

(** *** The arrays of a frame hold the tokens in the order of the stores *)

Lemma holds_fresh (cap : nat) : holds (Some (replicate cap None)) 0 cap [].
Proof.
  exists (replicate cap None). split; [reflexivity|].
  split; [apply length_replicate|]. split; [reflexivity|].
  intros k x Hk. rewrite lookup_nil in Hk. discriminate.
Qed.

(** Below the capacity a store appends to what the array holds. *)
Lemma store_slot_holds arr cnt cap xs tok :
  holds arr cnt cap xs -> (length xs < cap)%nat -> (cap <= 255)%nat ->
  exists arr', store_slot arr cnt tok = Ok arr' /\
               holds arr' (uint8 (cnt + 1)) cap (xs ++ [tok]).
Proof.
  intros (a & -> & Hlen & -> & Hget) Hlt Hcap. unfold store_slot.
  rewrite Hlen. destruct (Z.ltb_spec (Z.of_nat (length xs)) (Z.of_nat cap)); [|lia].
  destruct (Z.leb_spec 0 (Z.of_nat (length xs))); [|lia]. simpl.
  eexists. split; [reflexivity|]. rewrite Nat2Z.id.
  exists (<[length xs := Some tok]> a). split; [reflexivity|].
  split; [now rewrite length_insert|]. split.
  - rewrite length_app. simpl. unfold uint8. rewrite Z.mod_small; lia.
  - intros k x Hk. destruct (Nat.eq_dec k (length xs)) as [->|Hne].
    + rewrite lookup_app_r, Nat.sub_diag in Hk by lia. injection Hk as <-.
      apply list_lookup_insert_eq. lia.
    + rewrite list_lookup_insert_ne by congruence. apply Hget.
      assert (k < length (xs ++ [tok]))%nat by (eapply lookup_lt_Some; eauto).
      rewrite length_app in *. simpl in *.
      rewrite lookup_app_l in Hk by lia. exact Hk.
Qed.

(** At the capacity a store is outside the array. *)
Lemma store_slot_full arr cnt cap xs tok :
  holds arr cnt cap xs -> length xs = cap ->
  store_slot arr cnt tok = Undef HeapOverflow.
Proof.
  intros (a & -> & Hlen & -> & _) Hfull. unfold store_slot.
  rewrite Hlen, Hfull, Z.ltb_irrefl. reflexivity.
Qed.

Lemma copy_slots_reads (a : slots) (xs : list string) : forall i,
  (forall k x, xs !! k = Some x -> a !! (i + k)%nat = Some (Some x)) ->
  copy_slots (Some a) i (length xs) = Some xs.
Proof.
  induction xs as [|x xs IH]; intros i Hget; simpl; [reflexivity|].
  pose proof (Hget 0%nat x eq_refl) as H0. rewrite Nat.add_0_r in H0.
  rewrite H0, IH; [reflexivity|].
  intros k y Hk. replace (S i + k)%nat with (i + S k)%nat by lia.
  apply Hget. exact Hk.
Qed.

(** The copy loops of the executors read the strings back in the order
    of the stores. *)
Lemma copy_slots_holds arr cnt cap xs :
  holds arr cnt cap xs -> copy_slots arr 0 (Z.to_nat cnt) = Some xs.
Proof.
  intros (a & -> & _ & -> & Hget). rewrite Nat2Z.id.
  apply copy_slots_reads. exact Hget.
Qed.

(** The synchronous executor builds the argv of the claim: the command,
    the options in order, the arguments in order up to the redirection
    token. *)
Lemma argv_executeCommand_spec (f : _xcmf) c opts args :
  _Command f = Some c ->
  copy_slots (_Opts f) 0 (Z.to_nat (_Opt_Cnt f)) = Some opts ->
  copy_slots (_Args f) 0 (Z.to_nat (_Arg_Cnt f)) = Some args ->
  argv_executeCommand f = Some (c :: opts ++ before_redirection args).
Proof.
  intros Hc Ho Ha. unfold argv_executeCommand.
  rewrite Hc, Ho, (copy_slots_until_redirection_spec _ _ _ _ Ha). reflexivity.
Qed.

(** The pipeline executor passes every stored argument. *)
Lemma argv_executeCommandPipe_spec (f : _xcmf) c opts args :
  _Command f = Some c ->
  copy_slots (_Opts f) 0 (Z.to_nat (_Opt_Cnt f)) = Some opts ->
  copy_slots (_Args f) 0 (Z.to_nat (_Arg_Cnt f)) = Some args ->
  argv_executeCommandPipe f = Some (c :: opts ++ args).
Proof.
  intros Hc Ho Ha. unfold argv_executeCommandPipe. rewrite Hc, Ho, Ha. reflexivity.
Qed.

(** A frame whose arrays hold [opts] and [args]: what each executor
    hands to exec. *)
Lemma argv_of_held_frame (f : _xcmf) c opts args :
  _Command f = Some c ->
  holds (_Opts f) (_Opt_Cnt f) OPTSMAX opts ->
  holds (_Args f) (_Arg_Cnt f) ARGSMAX args ->
  argv_executeCommand f = Some (c :: opts ++ before_redirection args) /\
  argv_executeCommandPipe f = Some (c :: opts ++ args).
Proof.
  intros Hc Ho Ha. apply copy_slots_holds in Ho, Ha. split.
  - now apply argv_executeCommand_spec.
  - now apply argv_executeCommandPipe_spec.
Qed.

(** The parser's store of an argument below the capacity. *)
Lemma push_arg_holds (f : _xcmf) args tok :
  holds (_Args f) (_Arg_Cnt f) ARGSMAX args -> (length args < ARGSMAX)%nat ->
  exists f', push_arg f tok = Ok f' /\
             holds (_Args f') (_Arg_Cnt f') ARGSMAX (args ++ [tok]) /\
             _Command f' = _Command f /\ _Opts f' = _Opts f /\
             _Opt_Cnt f' = _Opt_Cnt f /\
             redirection_file f' = redirection_file f.
Proof.
  intros Hh Hlt.
  destruct (store_slot_holds _ _ _ _ tok Hh Hlt) as (arr' & Hs & Hh');
    [unfold ARGSMAX; lia|].
  unfold push_arg. rewrite Hs. eexists. split; [reflexivity|].
  simpl. repeat split; try reflexivity. exact Hh'.
Qed.

(** C1. The code at the first frame of "ls -l > out.txt | cat": the
    parser returns [PIPELINE], the frame goes to the pipeline executor,
    and its child execs argv = [ls; -l; >], redirection token included,
    where the synchronous executor builds [ls; -l] from the same frame. *)
Theorem C1_pipeline_argv_keeps_redirection_token :
  exists f,
    parseInput (Some "ls -l > out.txt | cat") = Ok (PIPELINE, f, Some "cat") /\
    argv_executeCommandPipe f = Some ["ls"; "-l"; ">"] /\
    argv_executeCommand f = Some ["ls"; "-l"] /\
    (forall s, child_executeCommandPipe f s =
               [CDup2 (snd (_pipe_arr s)) STDOUT_FILENO;
                CClose (snd (_pipe_arr s));
                CExecvp (Some "ls") ["ls"; "-l"; ">"] None]).
Proof.
  eexists. split; [vm_compute; reflexivity|].
  split; [vm_compute; reflexivity|].
  split; [vm_compute; reflexivity|].
  intros s. reflexivity.
Qed.

(** ** The executors and the loop of main *)

Section InterpreterProperties.

Variable env : environment.

(** The loop of main, one turn unfolded. *)
Lemma run_line_step (cur : option string) (s : shell) :
  run_line env cur s =
  match parseInput cur with
  | Undef u => Faulted u s
  | Ok (directive, cmd, cur1) =>
      match dispatch env directive cmd cur1 s with
      | Running s1 =>
          if loop_again directive then run_line env cur1 s1
          else Running (after_loop directive s1)
      | Broken s1 => Running (after_loop directive s1)
      | o => o
      end
  end.
Proof.
  funelim (run_line env cur s); clear Heqcall;
    match goal with He : parseInput _ = _ |- _ => rewrite He end;
    try match goal with Hl : loop_again _ = _ |- _ => rewrite Hl end;
    reflexivity.
Qed.

Lemma new_events_emit (s : shell) (e : event) : new_events s (emit e s) = [e].
Proof. unfold new_events, emit. simpl. apply drop_app_length. Qed.

Lemma new_events_emit2 (s : shell) (e1 e2 : event) :
  new_events s (emit e2 (emit e1 s)) = [e1; e2].
Proof.
  unfold new_events, emit. simpl. rewrite <- app_assoc. apply drop_app_length.
Qed.

(** C10. For every frame whose command is null or the empty string the
    synchronous executor returns at once with the interpreter state as it
    was: no fork, no output, the pipe relay untouched, no event added. *)
Theorem C10_executeCommand_without_command (f : _xcmf) (s : shell) :
  _Command f = None \/ _Command f = Some "" ->
  executeCommand env f s = Running s /\ new_events s s = [].
Proof.
  intros H. split; [|apply new_events_same].
  unfold executeCommand. destruct H as [-> | ->]; reflexivity.
Qed.

(** *** The cd builtin *)

Lemma do_chdir_outcome (target : string) (s : shell) :
  chdir_outcome env target s (do_chdir env target s).
Proof.
  unfold chdir_outcome, do_chdir.
  destruct (env_chdir env (cwd s) target) as [d|].
  - split; [reflexivity|]. unfold new_events. simpl. apply drop_app_length.
  - split; [reflexivity|]. apply new_events_emit2.
Qed.

(** The joined path does not fit: the function returns without a call
    of chdir. *)
Lemma changeDirectory_too_long (f : _xcmf) (s : shell) c a :
  cwd s = Some c -> cd_argument f = Some a ->
  MAX_PATH_LEN <= Z.of_nat (String.length c + 1 + String.length a) ->
  changeDirectory env f s = Running s.
Proof.
  unfold cd_argument, changeDirectory. intros Hc Ha Hlen.
  destruct (_Arg_Cnt f =? 0); [discriminate|]. rewrite Ha.
  assert (Hj : forall suffix, String.length suffix = S (String.length a) ->
                              join_cwd env suffix s = Running s).
  { intros suffix Hs. unfold join_cwd. rewrite Hc, Hs.
    destruct (Z.geb_spec (Z.of_nat (String.length c + S (String.length a)))
                         MAX_PATH_LEN); [reflexivity|lia]. }
  destruct (String.eqb a "..") eqn:E.
  - apply String.eqb_eq in E. subst a. apply Hj. reflexivity.
  - apply Hj. reflexivity.
Qed.

(** C3, amended. For every cd frame, when getcwd succeeds and the joined
    path is shorter than [MAX_PATH_LEN]: cd returns to the loop of main
    (it never ends the interpreter); without an argument the target is
    the home directory, and nothing happens when there is none; with the
    argument [..] the target is the string cwd + "/.."; with any other
    argument it is the string cwd + "/" + argument, absolute or not; and
    chdir is called once on that target: when it fails the working
    directory is unchanged and the error is reported. *)
Theorem C3_changeDirectory_target (f : _xcmf) (s : shell) (c : string) :
  (cd_argument f <> None -> cwd s = Some c) ->
  argument_readable f ->
  path_fits c (cd_argument f) ->
  exists s',
    changeDirectory env f s = Running s' /\
    match cd_target (env_home env) c (cd_argument f) with
    | None => s' = s
    | Some target => chdir_outcome env target s s'
    end.
Proof.
  unfold argument_readable, path_fits, cd_argument, changeDirectory.
  intros Hc Hr Hfit.
  destruct (_Arg_Cnt f =? 0) eqn:E0; simpl.
  - destruct (env_home env) as [h|]; eexists; split; try reflexivity.
    apply do_chdir_outcome.
  - destruct Hr as [Hr|[a Ha]]; [apply Z.eqb_neq in E0; contradiction|].
    rewrite Ha in *. simpl. specialize (Hc ltac:(discriminate)).
    assert (Hj : forall suffix, String.length suffix = S (String.length a) ->
               join_cwd env suffix s = Running (do_chdir env (c ++ suffix) s)).
    { intros suffix Hs. unfold join_cwd. rewrite Hc, Hs.
      destruct (Z.geb_spec (Z.of_nat (String.length c + S (String.length a)))
                           MAX_PATH_LEN); [lia|reflexivity]. }
    destruct (String.eqb a "..") eqn:E.
    + apply String.eqb_eq in E. subst a. eexists. split; [apply Hj; reflexivity|].
      apply do_chdir_outcome.
    + eexists. split; [apply Hj; reflexivity|]. apply do_chdir_outcome.
Qed.

(** *** Dispatch and the pipe relay *)

Lemma dispatch_external (d : execution_directive_t) (f : _xcmf)
  (line : option string) (s : shell) c :
  _Command f = Some c -> c <> CMD_CD -> c <> CMD_EXIT ->
  dispatch env d f line s =
  match d with
  | PARALLEL =>
      match sys_fork env (ChildShell f) s with
      | (true, s1) => Running s1
      | (false, s1) => Broken (emit (EvPerror ERR_FORK) s1)
      end
  | PIPELINE => executeCommandPipe env f s
  | _ => executeCommand env f s
  end.
Proof.
  intros Hc Hcd Hexit. unfold dispatch. rewrite Hc.
  destruct (String.eqb_spec c CMD_CD); [contradiction|].
  destruct (String.eqb_spec c CMD_EXIT); [contradiction|]. reflexivity.
Qed.

(** What a reset does: it closes every descriptor that the relay stores
    and nothing else. *)
Lemma pipeReset_closes (s : shell) :
  trace (pipeReset s) = (trace s ++ reset_closes s)%list.
Proof.
  destruct s as [p [a b] c nf np t]. unfold pipeReset, reset_closes. simpl.
  destruct (a =? -1); simpl; destruct (b =? -1); simpl;
    rewrite <- ?app_assoc, ?app_nil_r; reflexivity.
Qed.

(** C5, amended. A frame dispatched to the synchronous executor with a
    command that is not empty, when the fork succeeds, is followed by a
    reset of the pipe relay: after the fork and the wait for the child
    the dispatch calls [pipeReset], which closes every descriptor that
    the relay stores, and the relay is idle when the dispatch returns.
    A frame dispatched to the pipeline executor is not: after the pipe,
    the fork, the close of the write end and the wait, it leaves the
    relay armed, holding the descriptors of its pipe. *)
Theorem C5_reset_after_synchronous_dispatch
  (d : execution_directive_t) (f : _xcmf) (line : option string)
  (s : shell) (c : string) (fds : Z * Z) :
  _Command f = Some c -> c <> "" -> c <> CMD_CD -> c <> CMD_EXIT ->
  d <> PARALLEL ->
  env_fork env (n_fork s) = true ->
  (d = PIPELINE -> env_pipe env (n_pipe s) = Some fds) ->
  exists s',
    dispatch env d f line s = Running s' /\
    match d with
    | PIPELINE =>
        is_piped s' = true /\ _pipe_arr s' = fds /\ ~ relay_idle s' /\
        new_events s s' =
          [EvPipe (Some fds);
           EvFork (Some (ChildExec
             (child_executeCommandPipe f
                (set_pipe_arr fds (emit (EvPipe (Some fds)) (count_pipe s))))));
           EvClose (snd fds); EvWaitpid]
    | _ =>
        exists s_wait,
          new_events s s_wait =
            [EvFork (Some (ChildExec (child_executeCommand f s))); EvWaitpid] /\
          is_piped s_wait = is_piped s /\ _pipe_arr s_wait = _pipe_arr s /\
          s' = pipeReset s_wait /\
          new_events s_wait s' = reset_closes s /\
          new_events s s' =
            ([EvFork (Some (ChildExec (child_executeCommand f s))); EvWaitpid]
             ++ reset_closes s)%list /\
          relay_idle s'
    end.
Proof.
  intros Hc Hne Hcd Hexit Hd Hfork Hpipe.
  rewrite (dispatch_external d f line s c Hc Hcd Hexit).
  assert (Hsync : exists s', executeCommand env f s = Running s' /\
            exists s_wait,
              new_events s s_wait =
                [EvFork (Some (ChildExec (child_executeCommand f s))); EvWaitpid] /\
              is_piped s_wait = is_piped s /\ _pipe_arr s_wait = _pipe_arr s /\
              s' = pipeReset s_wait /\
              new_events s_wait s' = reset_closes s /\
              new_events s s' =
                ([EvFork (Some (ChildExec (child_executeCommand f s))); EvWaitpid]
                 ++ reset_closes s)%list /\
              relay_idle s').
  { unfold executeCommand, sys_fork. rewrite Hc, Hfork.
    destruct c; [contradiction|]. simpl Nat.eqb. cbv iota.
    eexists. split; [reflexivity|]. eexists.
    split; [|split; [|split; [|split; [reflexivity|]]]]; cycle 3.
    - split; [|split; [|apply pipeReset_idle]].
      + unfold new_events. rewrite pipeReset_closes. apply drop_app_length.
      + unfold new_events. rewrite pipeReset_closes. simpl.
        rewrite <- !app_assoc. apply drop_app_length.
    - unfold new_events. simpl. rewrite <- app_assoc. apply drop_app_length.
    - reflexivity.
    - reflexivity. }
  destruct d; try exact Hsync; [contradiction|].
  unfold executeCommandPipe, sys_fork. rewrite (Hpipe eq_refl). simpl.
  rewrite Hfork. eexists. split; [reflexivity|]. simpl.
  split; [reflexivity|]. split; [reflexivity|].
  split; [intros [Hp _]; discriminate|].
  unfold new_events. simpl. rewrite <- !app_assoc. apply drop_app_length.
Qed.

(** C7, amended. When the fork of a dispatched frame fails: on the
    synchronous and on the pipeline path the failure is reported and the
    interpreter exits with [EXIT_FAILURE], whatever is left of the line;
    on the parallel path the failure is reported, the loop over the line
    is left by [break], the children are waited for and the interpreter
    goes on running. *)
Theorem C7_fork_failure
  (cur cur1 : option string) (d : execution_directive_t) (f : _xcmf)
  (s : shell) (c : string) :
  parseInput cur = Ok (d, f, cur1) ->
  _Command f = Some c -> forks_on_dispatch d c ->
  env_fork env (n_fork s) = false ->
  (d = PIPELINE -> env_pipe env (n_pipe s) <> None) ->
  exists s',
    (exists before,
       new_events s s' = (before ++ [EvFork None; EvPerror ERR_FORK])%list) /\
    match d with
    | PARALLEL =>
        dispatch env d f cur1 s = Broken s' /\
        run_line env cur s = Running (emit EvWaitAll s')
    | _ =>
        dispatch env d f cur1 s = Exited EXIT_FAILURE s' /\
        run_line env cur s = Exited EXIT_FAILURE s'
    end.
Proof.
  intros Hp Hc (Hcd & Hexit & Hempty) Hfork Hpipe.
  rewrite run_line_step, Hp.
  rewrite (dispatch_external d f cur1 s c Hc Hcd Hexit).
  assert (Hsync : exists s',
                    new_events s s' = ([] ++ [EvFork None; EvPerror ERR_FORK])%list /\
                    (d <> PARALLEL -> d <> PIPELINE ->
                     executeCommand env f s = Exited EXIT_FAILURE s')).
  { eexists. split; cycle 1.
    - intros H1 H2. unfold executeCommand, sys_fork. rewrite Hc, Hfork.
      destruct c; [destruct (Hempty eq_refl); contradiction|]. reflexivity.
    - events_added. }
  destruct d.
  1, 3, 4, 6:
    destruct Hsync as (s' & Hi & He); exists s';
    rewrite He by discriminate; eauto.
  - unfold sys_fork. rewrite Hfork. eexists. split; cycle 1.
    + split; reflexivity.
    + exists []. events_added.
  - unfold executeCommandPipe, sys_fork.
    destruct (env_pipe env (n_pipe s)) as [fds|]; [|now destruct Hpipe].
    simpl. rewrite Hfork. eexists. split; cycle 1.
    + split; reflexivity.
    + exists [EvPipe (Some fds)]. events_added.
Qed.

(** *** The parse after a trailing control operator *)

(** The turns the loop has made do not change how it ends. *)
Lemma loop_reaches_run cur s cur' s' :
  loop_reaches env cur s cur' s' -> run_line env cur s = run_line env cur' s'.
Proof.
  induction 1 as [|cur s d f cur1 s1 cur2 s2 Hp Hl Hd _ IH]; [reflexivity|].
  rewrite run_line_step, Hp, Hd, Hl. exact IH.
Qed.

(** A cursor the loop reaches is the end of the line it started from. *)
Lemma loop_reaches_suffix cur s cur' s' line' :
  loop_reaches env cur s cur' s' -> cur' = Some line' ->
  ends_with_token cur line'.
Proof.
  induction 1 as [|cur s d f cur1 s1 cur2 s2 Hp Hl Hd _ IH]; intros ->.
  - left. reflexivity.
  - specialize (IH eq_refl).
    destruct cur as [l|]; [|injection Hp as <- _ _; discriminate].
    destruct cur1 as [r1|]; [|destruct IH as [IH|[pre IH]]; discriminate].
    destruct (parseInput_rest _ _ _ _ Hp) as [pre Hl'].
    eapply ends_with_token_trans; eauto.
Qed.

(** C9, amended. When the last token of an input line is taken by the
    parser as a control operator (the loop of main reaches a frame whose
    parse returns a control directive and leaves the cursor null, and the
    input line then ends in that operator) and the dispatch of that frame
    returns to the loop, the parse call after that frame receives the
    null cursor and returns [EXCEPTION] with every field of the frame
    null or zero; the loop of main then reads the null command field to
    choose between the builtins and the executors. *)
Theorem C9_parse_after_trailing_operator
  (input line : string) (d : execution_directive_t) (f : _xcmf)
  (s0 s s1 : shell) :
  loop_reaches env (Some input) s0 (Some line) s ->
  parseInput (Some line) = Ok (d, f, None) ->
  is_control d = true ->
  dispatch env d f None s = Running s1 ->
  (exists pre op,
      operator_token d = Some op /\ input = (pre ++ " " ++ op)%string) /\
  parseInput None = Ok (EXCEPTION, null_frame, None) /\
  null_frame = mk_xcmf None 0 None 0 None 0 None /\
  dispatch env EXCEPTION null_frame None s1 = Faulted NullDeref s1 /\
  run_line env (Some input) s0 = Faulted NullDeref s1.
Proof.
  intros Hr Hp Hd Hs. split; [|split; [|split; [|split]]]; try reflexivity.
  - destruct (operator_token d) as [op|] eqn:Hop;
      [|destruct d; discriminate].
    destruct (parseInput_trailing _ _ _ _ Hp Hop) as [pre Hline].
    pose proof (loop_reaches_suffix _ _ _ _ _ Hr eq_refl) as Hin.
    destruct Hin as [[= ->]|[pre0 [= ->]]].
    + exists pre, op. split; [reflexivity|exact Hline].
    + exists (pre0 ++ " " ++ pre)%string, op. split; [reflexivity|].
      rewrite Hline. now rewrite !string_app_assoc.
  - rewrite (loop_reaches_run _ _ _ _ Hr).
    rewrite run_line_step, Hp, Hs.
    replace (loop_again d) with true by (destruct d; try discriminate; reflexivity).
    rewrite run_line_step. reflexivity.
Qed.

End InterpreterProperties.

(** ** Instances *)

Lemma repeat_char_length c n : String.length (repeat_char c n) = n.
Proof. induction n as [|n IH]; simpl; congruence. Qed.

(** [long_cd_frame] is what the parser builds for that line. *)
Lemma long_cd_frame_parsed :
  parseInput (Some ("cd " ++ long_name)) = Ok (TERMINATED, long_cd_frame, None).
Proof.
  apply (parseInput_one_argument "cd" long_name); reflexivity.
Qed.

Lemma long_cd_frame_argument : cd_argument long_cd_frame = Some long_name.
Proof. reflexivity. Qed.

(** C3. As stated the claim fails on a long argument: from the directory
    /home/u/work the frame of "cd " followed by a name of 49990 letters,
    which is not [..], has the target /home/u/work/name in the words of
    the claim, yet cd returns without calling chdir on it or on anything
    else, because the joined path does not fit [abs_pth]. *)
Lemma C3_long_argument_no_chdir :
  parseInput (Some ("cd " ++ long_name)) = Ok (TERMINATED, long_cd_frame, None) /\
  cwd initial_shell = Some "/home/u/work" /\
  cd_target (env_home env_ok) "/home/u/work" (cd_argument long_cd_frame)
    = Some ("/home/u/work" ++ "/" ++ long_name)%string /\
  changeDirectory env_ok long_cd_frame initial_shell = Running initial_shell /\
  (forall s' path ok,
      changeDirectory env_ok long_cd_frame initial_shell = Running s' ->
      ~ In (EvChdir path ok) (new_events initial_shell s')) /\
  ~ chdir_outcome env_ok ("/home/u/work" ++ "/" ++ long_name)%string
      initial_shell initial_shell.
Proof.
  split; [exact long_cd_frame_parsed|].
  split; [reflexivity|]. split; [reflexivity|].
  assert (H : changeDirectory env_ok long_cd_frame initial_shell
               = Running initial_shell).
  { apply (changeDirectory_too_long env_ok _ _ "/home/u/work" long_name);
      [reflexivity|reflexivity|].
    unfold long_name. rewrite repeat_char_length. vm_compute. discriminate. }
  split; [exact H|split].
  - intros s' path ok Hs. rewrite H in Hs. injection Hs as <-.
    rewrite new_events_same. intros [].
  - unfold chdir_outcome. simpl. rewrite new_events_same.
    intros [_ Hev]. discriminate.
Qed.

(** Witness of C3: "cd /etc" from /home/u/work. *)
Lemma C3_changeDirectory_target_witness :
  (cd_argument (parsed_frame "cd /etc") <> None ->
   cwd initial_shell = Some "/home/u/work") /\
  argument_readable (parsed_frame "cd /etc") /\
  path_fits "/home/u/work" (cd_argument (parsed_frame "cd /etc")) /\
  exists s',
    changeDirectory env_ok (parsed_frame "cd /etc") initial_shell = Running s' /\
    match cd_target (env_home env_ok) "/home/u/work"
                    (cd_argument (parsed_frame "cd /etc")) with
    | None => s' = initial_shell
    | Some target => chdir_outcome env_ok target initial_shell s'
    end.
Proof.
  assert (H1 : cd_argument (parsed_frame "cd /etc") <> None ->
               cwd initial_shell = Some "/home/u/work")
    by (intros _; reflexivity).
  assert (H2 : argument_readable (parsed_frame "cd /etc"))
    by (right; exists "/etc"; vm_compute; reflexivity).
  assert (H3 : path_fits "/home/u/work" (cd_argument (parsed_frame "cd /etc")))
    by (vm_compute; reflexivity).
  split; [exact H1|]. split; [exact H2|]. split; [exact H3|].
  exact (C3_changeDirectory_target env_ok (parsed_frame "cd /etc")
           initial_shell "/home/u/work" H1 H2 H3).
Defined.

(** Witness of C10: the frame of the empty line. *)
Lemma C10_executeCommand_without_command_witness :
  (_Command (parsed_frame "") = None \/ _Command (parsed_frame "") = Some "") /\
  executeCommand env_ok (parsed_frame "") initial_shell = Running initial_shell /\
  new_events initial_shell initial_shell = [].
Proof.
  assert (H : _Command (parsed_frame "") = None \/
              _Command (parsed_frame "") = Some "")
    by (right; vm_compute; reflexivity).
  split; [exact H|].
  exact (C10_executeCommand_without_command env_ok (parsed_frame "")
           initial_shell H).
Defined.

(** C5. As stated the claim fails on "ls | cd": the pipeline frame arms
    the relay, and the dispatch of the builtin frame that follows returns
    without a reset, so that the line ends with the relay still armed and
    holding the descriptors of the pipe. *)
Lemma C5_relay_armed_after_builtin :
  exists f1 f2 s1 s2,
    parseInput (Some "ls | cd") = Ok (PIPELINE, f1, Some "cd") /\
    dispatch env_ok PIPELINE f1 (Some "cd") initial_shell = Running s1 /\
    parseInput (Some "cd") = Ok (TERMINATED, f2, None) /\
    dispatch env_ok TERMINATED f2 None s1 = Running s2 /\
    run_line env_ok (Some "ls | cd") initial_shell = Running s2 /\
    is_piped s2 = true /\ _pipe_arr s2 = (3, 4) /\
    ~ relay_idle s2 /\ pipeReset s2 <> s2 /\
    (forall fd, ~ In (EvClose fd) (new_events s1 s2)).
Proof.
  do 4 eexists.
  split; [vm_compute; reflexivity|].
  split; [vm_compute; reflexivity|].
  split; [vm_compute; reflexivity|].
  split; [vm_compute; reflexivity|].
  split; [vm_compute; reflexivity|].
  split; [reflexivity|]. split; [reflexivity|].
  split; [intros [H _]; discriminate|].
  split; [vm_compute; discriminate|].
  intros fd. vm_compute. intros [H|[]]. discriminate.
Qed.

(** Witness of C5: the frame of "ls" as the last of a line, and as the
    first stage of a pipeline. *)
Lemma C5_reset_after_synchronous_dispatch_witness :
  (_Command (parsed_frame "ls") = Some "ls" /\
   env_fork env_ok (n_fork initial_shell) = true /\
   exists s',
     dispatch env_ok TERMINATED (parsed_frame "ls") None initial_shell
       = Running s' /\
     exists s_wait,
       new_events initial_shell s_wait =
         [EvFork (Some (ChildExec
            (child_executeCommand (parsed_frame "ls") initial_shell)));
          EvWaitpid] /\
       is_piped s_wait = is_piped initial_shell /\
       _pipe_arr s_wait = _pipe_arr initial_shell /\
       s' = pipeReset s_wait /\
       new_events s_wait s' = reset_closes initial_shell /\
       new_events initial_shell s' =
         ([EvFork (Some (ChildExec
             (child_executeCommand (parsed_frame "ls") initial_shell)));
           EvWaitpid] ++ reset_closes initial_shell)%list /\
       relay_idle s') /\
  (_Command (parsed_frame "ls | wc") = Some "ls" /\
   env_fork env_ok (n_fork initial_shell) = true /\
   env_pipe env_ok (n_pipe initial_shell) = Some (3, 4) /\
   exists s',
     dispatch env_ok PIPELINE (parsed_frame "ls | wc") (Some "wc") initial_shell
       = Running s' /\
     is_piped s' = true /\ _pipe_arr s' = (3, 4) /\ ~ relay_idle s' /\
     new_events initial_shell s' =
       [EvPipe (Some (3, 4));
        EvFork (Some (ChildExec
          (child_executeCommandPipe (parsed_frame "ls | wc")
             (set_pipe_arr (3, 4)
                (emit (EvPipe (Some (3, 4))) (count_pipe initial_shell))))));
        EvClose (snd (3, 4)); EvWaitpid]).
Proof.
  split.
  - split; [reflexivity|]. split; [reflexivity|].
    apply (C5_reset_after_synchronous_dispatch env_ok TERMINATED
             (parsed_frame "ls") None initial_shell "ls" (3, 4));
      try reflexivity; discriminate.
  - split; [reflexivity|]. split; [reflexivity|]. split; [reflexivity|].
    apply (C5_reset_after_synchronous_dispatch env_ok PIPELINE
             (parsed_frame "ls | wc") (Some "wc") initial_shell "ls" (3, 4));
      try reflexivity; discriminate.
Defined.

(** C7. As stated the claim fails on the parallel path: with no process
    left, "ls && pwd" reports the failed fork, leaves the loop over the
    line and waits; the interpreter does not exit. *)
Lemma C7_parallel_fork_failure_not_fatal :
  exists f,
    parseInput (Some "ls && pwd") = Ok (PARALLEL, f, Some "pwd") /\
    env_fork env_no_fork (n_fork initial_shell) = false /\
    run_line env_no_fork (Some "ls && pwd") initial_shell =
      Running (mk_shell false (-1, -1) (Some "/home/u/work") 1 0
                 [EvFork None; EvPerror ERR_FORK; EvWaitAll]) /\
    (forall code s', run_line env_no_fork (Some "ls && pwd") initial_shell
                     <> Exited code s').
Proof.
  eexists. split; [vm_compute; reflexivity|]. split; [reflexivity|].
  assert (H : run_line env_no_fork (Some "ls && pwd") initial_shell =
              Running (mk_shell false (-1, -1) (Some "/home/u/work") 1 0
                         [EvFork None; EvPerror ERR_FORK; EvWaitAll]))
    by (vm_compute; reflexivity).
  split; [exact H|]. intros code s'. rewrite H. discriminate.
Qed.

(** Witness of C7: "ls ## pwd" and "ls && pwd" with no process left. *)
Lemma C7_fork_failure_witness :
  (parseInput (Some "ls ## pwd")
     = Ok (SEQUENTIAL, parsed_frame "ls ## pwd", Some "pwd") /\
   _Command (parsed_frame "ls ## pwd") = Some "ls" /\
   forks_on_dispatch SEQUENTIAL "ls" /\
   env_fork env_no_fork (n_fork initial_shell) = false /\
   exists s',
     (exists before, new_events initial_shell s' =
                     (before ++ [EvFork None; EvPerror ERR_FORK])%list) /\
     dispatch env_no_fork SEQUENTIAL (parsed_frame "ls ## pwd") (Some "pwd")
       initial_shell
       = Exited EXIT_FAILURE s' /\
     run_line env_no_fork (Some "ls ## pwd") initial_shell
       = Exited EXIT_FAILURE s') /\
  (parseInput (Some "ls && pwd")
     = Ok (PARALLEL, parsed_frame "ls && pwd", Some "pwd") /\
   _Command (parsed_frame "ls && pwd") = Some "ls" /\
   forks_on_dispatch PARALLEL "ls" /\
   env_fork env_no_fork (n_fork initial_shell) = false /\
   exists s',
     (exists before, new_events initial_shell s' =
                     (before ++ [EvFork None; EvPerror ERR_FORK])%list) /\
     dispatch env_no_fork PARALLEL (parsed_frame "ls && pwd") (Some "pwd")
       initial_shell
       = Broken s' /\
     run_line env_no_fork (Some "ls && pwd") initial_shell
       = Running (emit EvWaitAll s')).
Proof.
  assert (Hf : forall d, forks_on_dispatch d "ls")
    by (intros d; repeat split; discriminate).
  split.
  - split; [vm_compute; reflexivity|]. split; [reflexivity|].
    split; [apply Hf|]. split; [reflexivity|].
    apply (C7_fork_failure env_no_fork (Some "ls ## pwd") (Some "pwd")
             SEQUENTIAL (parsed_frame "ls ## pwd") initial_shell "ls");
      try (vm_compute; reflexivity); try discriminate. apply Hf.
  - split; [vm_compute; reflexivity|]. split; [reflexivity|].
    split; [apply Hf|]. split; [reflexivity|].
    apply (C7_fork_failure env_no_fork (Some "ls && pwd") (Some "pwd")
             PARALLEL (parsed_frame "ls && pwd") initial_shell "ls");
      try (vm_compute; reflexivity); try discriminate. apply Hf.
Defined.

(** C9. As stated the claim fails on lines whose last token is a control
    operator that is not the end of a dispatched frame.  In "ls > ##" the
    last token is taken as the redirection target: the parse returns
    [TERMINATED] and the loop ends without another parse.  In "##" it is
    the command.  In "exit ##" the frame before the operator returns from
    main, and in "ls ##" with no process left the failed fork exits: in
    neither is there a parse after the frame. *)
Lemma C9_trailing_operator_without_next_parse :
  ends_with_token (Some "ls > ##") _SEQUENTIAL /\
  (exists f s',
      parseInput (Some "ls > ##") = Ok (TERMINATED, f, None) /\
      redirection_file f = Some _SEQUENTIAL /\
      run_line env_ok (Some "ls > ##") initial_shell = Running s') /\
  ends_with_token (Some "##") _SEQUENTIAL /\
  (exists s',
      parseInput (Some "##") = Ok (TERMINATED, fresh_frame "##", None) /\
      run_line env_ok (Some "##") initial_shell = Running s') /\
  ends_with_token (Some "exit ##") _SEQUENTIAL /\
  (exists f s',
      parseInput (Some "exit ##") = Ok (SEQUENTIAL, f, None) /\
      run_line env_ok (Some "exit ##") initial_shell = Returned 0 s') /\
  ends_with_token (Some "ls ##") _SEQUENTIAL /\
  (exists f s',
      parseInput (Some "ls ##") = Ok (SEQUENTIAL, f, None) /\
      run_line env_no_fork (Some "ls ##") initial_shell
        = Exited EXIT_FAILURE s').
Proof.
  split; [right; exists "ls >"; reflexivity|].
  split; [do 2 eexists; repeat split; vm_compute; reflexivity|].
  split; [left; reflexivity|].
  split; [eexists; split; vm_compute; reflexivity|].
  split; [right; exists "exit"; reflexivity|].
  split; [do 2 eexists; split; vm_compute; reflexivity|].
  split; [right; exists "ls"; reflexivity|].
  do 2 eexists; split; vm_compute; reflexivity.
Qed.

(** Witness of C9: the line "pwd ## echo hi ##", whose second frame ends
    in the sequential operator. *)
Lemma C9_parse_after_trailing_operator_witness :
  let s := state_of (dispatch env_ok SEQUENTIAL
                       (parsed_frame "pwd ## echo hi ##")
                       (Some "echo hi ##") initial_shell) in
  let s1 := state_of (dispatch env_ok SEQUENTIAL
                        (parsed_frame "echo hi ##") None s) in
  loop_reaches env_ok (Some "pwd ## echo hi ##") initial_shell
               (Some "echo hi ##") s /\
  parseInput (Some "echo hi ##")
    = Ok (SEQUENTIAL, parsed_frame "echo hi ##", None) /\
  is_control SEQUENTIAL = true /\
  dispatch env_ok SEQUENTIAL (parsed_frame "echo hi ##") None s = Running s1 /\
  (exists pre op,
      operator_token SEQUENTIAL = Some op /\
      "pwd ## echo hi ##" = (pre ++ " " ++ op)%string) /\
  parseInput None = Ok (EXCEPTION, null_frame, None) /\
  dispatch env_ok EXCEPTION null_frame None s1 = Faulted NullDeref s1 /\
  run_line env_ok (Some "pwd ## echo hi ##") initial_shell
    = Faulted NullDeref s1.
Proof.
  intros s s1.
  assert (H0 : loop_reaches env_ok (Some "pwd ## echo hi ##") initial_shell
                            (Some "echo hi ##") s).
  { apply (reaches_turn env_ok _ _ SEQUENTIAL
             (parsed_frame "pwd ## echo hi ##") (Some "echo hi ##") s);
      [vm_compute; reflexivity|reflexivity|vm_compute; reflexivity|].
    apply reaches_here. }
  assert (H1 : parseInput (Some "echo hi ##")
               = Ok (SEQUENTIAL, parsed_frame "echo hi ##", None))
    by (vm_compute; reflexivity).
  assert (H2 : is_control SEQUENTIAL = true) by reflexivity.
  assert (H3 : dispatch env_ok SEQUENTIAL (parsed_frame "echo hi ##") None s
               = Running s1)
    by (vm_compute; reflexivity).
  split; [exact H0|]. split; [exact H1|]. split; [exact H2|].
  split; [exact H3|].
  destruct (C9_parse_after_trailing_operator env_ok "pwd ## echo hi ##"
              "echo hi ##" SEQUENTIAL (parsed_frame "echo hi ##")
              initial_shell s s1 H0 H1 H2 H3)
    as (He & Hn & _ & Hd & Hr).
  split; [exact He|]. split; [exact Hn|]. split; [exact Hd|exact Hr].
Defined.

(** * Further properties of the code *)

(** ** The cursor tokenizer *)

Lemma string_app_empty (a : string) : (a ++ "")%string = a.
Proof. induction a as [|x a IH]; simpl; congruence. Qed.

Lemma strsep_scan_no_space s t r : strsep_scan s = (t, r) -> has_space t = false.
Proof.
  revert t r. induction s as [|c s IH]; intros t r; simpl.
  - intros [= <- <-]. reflexivity.
  - destruct (Ascii.eqb c " ") eqn:Ec.
    + intros [= <- <-]. reflexivity.
    + destruct (strsep_scan s) as [t' r'] eqn:E. intros [= <- <-].
      simpl. rewrite Ec. eapply IH. reflexivity.
Qed.

Lemma strsep_scan_rest_none s t :
  strsep_scan s = (t, None) <-> (s = t /\ has_space s = false).
Proof.
  split.
  - intros E. pose proof (strsep_scan_no_space _ _ _ E).
    apply strsep_scan_last in E. subst. auto.
  - intros [-> H]. apply strsep_scan_whole. exact H.
Qed.

(** X1. [strsep] on a cursor that is not null always returns a token: the
    token holds no separator, the token, the separator and the cursor
    left behind make up the line again, and the cursor left behind is
    null exactly when the line held no separator.  On the null cursor it
    returns null. *)
Theorem X1_strsep_round_trip (s : string) :
  (exists t r,
      strsep (Some s) = (Some t, r) /\
      has_space t = false /\
      s = (t ++ cursor_suffix r)%string /\
      (r = None <-> has_space s = false)) /\
  strsep None = (None, None).
Proof.
  split; [|reflexivity]. unfold strsep.
  destruct (strsep_scan s) as [t r] eqn:E. exists t, r.
  split; [reflexivity|]. split; [eapply strsep_scan_no_space; eauto|].
  split.
  - destruct r as [r|]; simpl.
    + apply strsep_scan_join in E. exact E.
    + apply strsep_scan_last in E. now rewrite string_app_empty.
  - split.
    + intros ->. apply strsep_scan_rest_none in E. tauto.
    + intros Hs. apply strsep_scan_whole in Hs. congruence.
Qed.

(** ** The frame parser: cursor and directive *)

(** A control directive is returned at the operator token, and the cursor
    left behind is what follows it. *)
Lemma parse_tokens_operator cmd cur d f c1 op :
  parse_tokens cmd cur = Ok (d, f, c1) ->
  operator_token d = Some op ->
  ends_with_token cur (op ++ cursor_suffix c1).
Proof.
  funelim (parse_tokens cmd cur); intros Hp Hop; clear Heqcall;
    match goal with Hs : @eq (sigma _) _ _ |- _ => clear Hs end.
  - destruct cur as [l|]; [|discriminate]. simpl in E1.
    destruct (strsep_scan l) as [t r] eqn:El. injection E1 as -> ->.
    assert (Hstep : forall cmd1,
               parse_tokens cmd1 cur1 = Ok (d, f, c1) ->
               ends_with_token (Some l) (op ++ cursor_suffix c1)).
    { intros cmd1 Hp1. pose proof (H0 _ _ _ _ _ Hp1 Hop) as Hend.
      destruct (ends_with_token_after _ _ _ _ El Hend) as [pre ->].
      right. exists pre. reflexivity. }
    assert (Hctl : token = op -> cur1 = c1 ->
                   ends_with_token (Some l) (op ++ cursor_suffix c1)).
    { intros -> ->. left. f_equal. destruct c1 as [r1|]; simpl.
      - apply strsep_scan_join in El. exact El.
      - apply strsep_scan_last in El. now rewrite string_app_empty. }
    destruct (String.eqb token _PARALLEL) eqn:E.
    { injection Hp as <- <- <-. apply String.eqb_eq in E.
      injection Hop as <-. auto. }
    clear E. destruct (String.eqb token _SEQUENTIAL) eqn:E.
    { injection Hp as <- <- <-. apply String.eqb_eq in E.
      injection Hop as <-. auto. }
    clear E. destruct (String.eqb token _PIPELINE) eqn:E.
    { injection Hp as <- <- <-. apply String.eqb_eq in E.
      injection Hop as <-. auto. }
    clear E. destruct (String.eqb token _REDIRECTION).
    + destruct (push_arg cmd token) as [cmd1|]; [|discriminate].
      destruct (redirection_file cmd1); [discriminate|].
      pose proof (H _ _ _ _ _ Hp Hop) as Hend. clear Hp.
      destruct cur1 as [l1|]; simpl in Hend.
      * destruct (strsep_scan l1) as [t1 r1] eqn:El1. simpl in Hend.
        destruct (ends_with_token_after _ _ _ _ El1 Hend) as [pre1 ->].
        apply strsep_scan_join in El. subst l.
        right. exists (token ++ " " ++ pre1)%string.
        now rewrite !string_app_assoc.
      * destruct Hend as [Hend|[pre Hend]]; discriminate.
    + destruct (starts_with_dash token).
      * destruct (push_opt cmd token) as [cmd1|]; [|discriminate]. eauto.
      * destruct (push_arg cmd token) as [cmd1|]; [|discriminate]. eauto.
  - destruct (split_embedded cmd); [|discriminate].
    injection Hp as <- _ _. discriminate.
Qed.

Lemma parse_tokens_directive cmd cur d f c1 :
  parse_tokens cmd cur = Ok (d, f, c1) ->
  d <> INIT /\ d <> EXCEPTION /\ (d = TERMINATED -> c1 = None).
Proof.
  funelim (parse_tokens cmd cur); intros Hp; clear Heqcall;
    match goal with Hs : @eq (sigma _) _ _ |- _ => clear Hs end.
  - destruct (String.eqb token _PARALLEL);
      [injection Hp as <- _ _; repeat split; discriminate|].
    destruct (String.eqb token _SEQUENTIAL);
      [injection Hp as <- _ _; repeat split; discriminate|].
    destruct (String.eqb token _PIPELINE);
      [injection Hp as <- _ _; repeat split; discriminate|].
    destruct (String.eqb token _REDIRECTION).
    + destruct (push_arg cmd token) as [cmd1|]; [|discriminate].
      destruct (redirection_file cmd1); [discriminate|]. eauto.
    + destruct (starts_with_dash token).
      * destruct (push_opt cmd token) as [cmd1|]; [|discriminate]. eauto.
      * destruct (push_arg cmd token) as [cmd1|]; [|discriminate]. eauto.
  - destruct (split_embedded cmd); [|discriminate].
    injection Hp as <- _ <-.
    destruct cur as [l|]; simpl in e.
    + destruct (strsep_scan l); discriminate.
    + injection e as <-. repeat split; discriminate.
Qed.

(** X2. Every successful parse of a cursor that is not null takes at
    least one token: the cursor left behind is strictly shorter, and when
    it is not null it is the end of the line that was parsed, after a
    separator. *)
Theorem X2_parse_consumes (line : string)
  (d : execution_directive_t) (f : _xcmf) (c1 : option string) :
  parseInput (Some line) = Ok (d, f, c1) ->
  (cursor_size c1 < cursor_size (Some line))%nat /\
  (forall rest, c1 = Some rest ->
                exists consumed, line = (consumed ++ " " ++ rest)%string).
Proof.
  intros Hp. split.
  - unfold parseInput in Hp.
    destruct (strsep (Some line)) as [[token|] cur1] eqn:E.
    + apply parse_tokens_cursor in Hp. apply strsep_some_size in E. lia.
    + simpl in E. destruct (strsep_scan line). discriminate.
  - intros rest ->. eapply parseInput_rest. exact Hp.
Qed.

(** X3. What the directive of a successful parse tells: it is never
    [INIT]; it is [EXCEPTION] exactly on the null cursor, where the frame
    is the null frame; [TERMINATED] leaves the cursor null; and a control
    directive means that its operator stands in the line as a token, all
    that follows it being left in the cursor. *)
Theorem X3_parse_directive (cur : option string)
  (d : execution_directive_t) (f : _xcmf) (c1 : option string) :
  parseInput cur = Ok (d, f, c1) ->
  d <> INIT /\
  (d = EXCEPTION <-> cur = None) /\
  (cur = None -> f = null_frame /\ c1 = None) /\
  (d = TERMINATED -> c1 = None) /\
  (forall op, operator_token d = Some op ->
     exists line before,
       cur = Some line /\ line = (before ++ " " ++ op ++ cursor_suffix c1)%string).
Proof.
  unfold parseInput. destruct cur as [line|].
  - unfold strsep. destruct (strsep_scan line) as [t r] eqn:El. intros Hp.
    destruct (parse_tokens_directive _ _ _ _ _ Hp) as (Hi & He & Ht).
    split; [exact Hi|]. split; [split; [contradiction|discriminate]|].
    split; [discriminate|]. split; [exact Ht|].
    intros op Hop. exists line.
    pose proof (parse_tokens_operator _ _ _ _ _ _ Hp Hop) as Hend.
    destruct (ends_with_token_after _ _ _ _ El Hend) as [pre ->].
    exists pre. split; reflexivity.
  - intros [= <- <- <-]. split; [discriminate|].
    split; [split; reflexivity|]. split; [split; reflexivity|].
    split; [discriminate|]. intros op [=].
Qed.

(** ** The frame parser: what the arrays of a frame hold *)

Lemma holds_le arr cnt cap xs : holds arr cnt cap xs -> (length xs <= cap)%nat.
Proof.
  intros (a & _ & Hlen & _ & Hget).
  destruct (Nat.le_gt_cases (length xs) cap) as [|Hgt]; [assumption|].
  destruct (lookup_lt_is_Some_2 xs cap Hgt) as [x Hx].
  apply Hget, lookup_lt_Some in Hx. lia.
Qed.

(** A store that succeeds appends to what the array holds. *)
Lemma store_slot_inv arr cnt cap xs tok arr' :
  holds arr cnt cap xs -> (cap <= 255)%nat ->
  store_slot arr cnt tok = Ok arr' ->
  holds arr' (uint8 (cnt + 1)) cap (xs ++ [tok]).
Proof.
  intros Hh Hcap Hs. pose proof (holds_le _ _ _ _ Hh) as Hle.
  destruct (Nat.eq_dec (length xs) cap) as [Hfull|Hne].
  - rewrite (store_slot_full _ _ _ _ tok Hh Hfull) in Hs. discriminate.
  - destruct (store_slot_holds _ _ _ _ tok Hh ltac:(lia) Hcap) as (arr2 & Hs2 & Hh2).
    congruence.
Qed.

Lemma push_arg_inv cmd c opts args tok cmd1 :
  frame_holds cmd c opts args -> push_arg cmd tok = Ok cmd1 ->
  frame_holds cmd1 c opts (args ++ [tok]) /\
  redirection_file cmd1 = redirection_file cmd.
Proof.
  intros (Hc & Ho & Ha). unfold push_arg.
  destruct (store_slot (_Args cmd) (_Arg_Cnt cmd) tok) as [a|] eqn:Hs; [|discriminate].
  intros [= <-]. split; [|reflexivity].
  split; [exact Hc|]. split; [exact Ho|]. simpl.
  eapply store_slot_inv; eauto. unfold ARGSMAX. lia.
Qed.

Lemma push_opt_inv cmd c opts args tok cmd1 :
  frame_holds cmd c opts args -> push_opt cmd tok = Ok cmd1 ->
  frame_holds cmd1 c (opts ++ [tok]) args /\
  redirection_file cmd1 = redirection_file cmd.
Proof.
  intros (Hc & Ho & Ha). unfold push_opt.
  destruct (store_slot (_Opts cmd) (_Opt_Cnt cmd) tok) as [a|] eqn:Hs; [|discriminate].
  intros [= <-]. split; [|reflexivity].
  split; [exact Hc|]. split; [|exact Ha]. simpl.
  eapply store_slot_inv; eauto. unfold OPTSMAX. lia.
Qed.

Lemma split_embedded_holds cmd c opts args cmd1 :
  frame_holds cmd c opts args -> split_embedded cmd = Ok cmd1 ->
  exists c', frame_holds cmd1 c' opts args.
Proof.
  intros (Hc & Ho & Ha). unfold split_embedded. rewrite Hc.
  destruct (first_gt c) as [i|]; [|intros [= <-]; exists c; repeat split; assumption].
  destruct (negb (i =? String.length c - 1)%nat); intros [= <-];
    eexists; (split; [reflexivity|split; assumption]).
Qed.

Lemma fresh_frame_holds token : frame_holds (fresh_frame token) token [] [].
Proof. split; [reflexivity|]. split; apply holds_fresh. Qed.

(** The loop only appends: options to the options, arguments to the
    arguments. *)
Lemma parse_tokens_holds cmd cur c opts0 args0 d f c1 :
  frame_holds cmd c opts0 args0 ->
  parse_tokens cmd cur = Ok (d, f, c1) ->
  exists c' opts args,
    frame_holds f c' (opts0 ++ opts) (args0 ++ args) /\
    Forall (fun t => starts_with_dash t = true) opts /\
    Forall (fun t => starts_with_dash t = false) args.
Proof.
  funelim (parse_tokens cmd cur); intros Hh Hp; clear Heqcall;
    match goal with Hs : @eq (sigma _) _ _ |- _ => clear Hs end.
  - assert (Hhere : f = cmd ->
              exists c' opts args,
                frame_holds f c' (opts0 ++ opts) (args0 ++ args) /\
                Forall (fun t => starts_with_dash t = true) opts /\
                Forall (fun t => starts_with_dash t = false) args).
    { intros ->. exists c, [], []. rewrite !app_nil_r. auto. }
    destruct (String.eqb token _PARALLEL); [injection Hp as _ <- _; auto|].
    destruct (String.eqb token _SEQUENTIAL); [injection Hp as _ <- _; auto|].
    destruct (String.eqb token _PIPELINE); [injection Hp as _ <- _; auto|].
    clear Hhere. destruct (String.eqb token _REDIRECTION) eqn:Er.
    + destruct (push_arg cmd token) as [cmd1|] eqn:Ep; [|discriminate].
      destruct (redirection_file cmd1); [discriminate|].
      destruct (push_arg_inv _ _ _ _ _ _ Hh Ep) as [Hh1 _].
      assert (Hh2 : frame_holds (set_redirection cmd1 (strsep cur1).1) c
                                opts0 (args0 ++ [token])) by exact Hh1.
      destruct (H _ _ _ _ _ _ _ Hh2 Hp) as (c' & opts & args & Hf & Fo & Fa).
      exists c', opts, (token :: args). rewrite <- app_assoc in Hf.
      split; [exact Hf|]. split; [exact Fo|]. constructor; [|exact Fa].
      apply String.eqb_eq in Er. subst token. reflexivity.
    + destruct (starts_with_dash token) eqn:Ed.
      * destruct (push_opt cmd token) as [cmd1|] eqn:Ep; [|discriminate].
        destruct (push_opt_inv _ _ _ _ _ _ Hh Ep) as [Hh1 _].
        destruct (H0 _ _ _ _ _ _ _ Hh1 Hp) as (c' & opts & args & Hf & Fo & Fa).
        exists c', (token :: opts), args. rewrite <- app_assoc in Hf. auto.
      * destruct (push_arg cmd token) as [cmd1|] eqn:Ep; [|discriminate].
        destruct (push_arg_inv _ _ _ _ _ _ Hh Ep) as [Hh1 _].
        destruct (H0 _ _ _ _ _ _ _ Hh1 Hp) as (c' & opts & args & Hf & Fo & Fa).
        exists c', opts, (token :: args). rewrite <- app_assoc in Hf. auto.
  - destruct (split_embedded cmd) as [cmd1|] eqn:Es; [|discriminate].
    injection Hp as _ <- _.
    destruct (split_embedded_holds _ _ _ _ _ Hh Es) as [c' Hf].
    exists c', [], []. rewrite !app_nil_r. auto.
Qed.

(** X4. Every frame of a successful parse of a line has a command and two
    allocated arrays that hold, below their capacity of ten, the options
    (the stored tokens that start with a dash) and the positional
    arguments (the others) in the order they were stored; so neither
    executor reads a slot that was never written, and each builds its
    argv from those lists. *)
Theorem X4_parsed_frame_well_formed (line : string)
  (d : execution_directive_t) (f : _xcmf) (c1 : option string) :
  parseInput (Some line) = Ok (d, f, c1) ->
  exists c opts args,
    frame_holds f c opts args /\
    (length opts <= OPTSMAX)%nat /\ (length args <= ARGSMAX)%nat /\
    Forall (fun t => starts_with_dash t = true) opts /\
    Forall (fun t => starts_with_dash t = false) args /\
    argv_executeCommand f = Some (c :: opts ++ before_redirection args) /\
    argv_executeCommandPipe f = Some (c :: opts ++ args).
Proof.
  unfold parseInput, strsep. destruct (strsep_scan line) as [t r]. intros Hp.
  destruct (parse_tokens_holds _ _ _ _ _ _ _ _ (fresh_frame_holds t) Hp)
    as (c & opts & args & Hf & Fo & Fa).
  simpl in Hf. exists c, opts, args. destruct Hf as (Hc & Ho & Ha).
  split; [repeat split; assumption|].
  split; [eapply holds_le; eauto|]. split; [eapply holds_le; eauto|].
  split; [exact Fo|]. split; [exact Fa|].
  apply argv_of_held_frame; assumption.
Qed.

(** ** The frame parser on a command with options and arguments *)

Lemma strsep_cursor_of (t : string) (rest : list string) :
  has_space t = false ->
  strsep (cursor_of (t :: rest)) = (Some t, cursor_of rest).
Proof.
  intros Ht. unfold strsep, cursor_of. destruct rest as [|t' rest'].
  - simpl. now rewrite (strsep_scan_whole t Ht).
  - change (join_tokens (t :: t' :: rest'))
      with (t ++ " " ++ join_tokens (t' :: rest'))%string.
    now rewrite (strsep_scan_token t _ Ht).
Qed.

Lemma split_embedded_ok cmd c :
  _Command cmd = Some c -> exists f, split_embedded cmd = Ok f.
Proof.
  intros Hc. unfold split_embedded. rewrite Hc.
  destruct (first_gt c); [|eauto].
  destruct (negb _); eauto.
Qed.

Lemma storable_tests (t : string) :
  storable t = true ->
  String.eqb t _PARALLEL = false /\ String.eqb t _SEQUENTIAL = false /\
  String.eqb t _PIPELINE = false /\ String.eqb t _REDIRECTION = false.
Proof.
  unfold storable. intros H.
  apply andb_prop in H as [H H4]. apply andb_prop in H as [H H3].
  apply andb_prop in H as [H1 H2].
  apply negb_true_iff in H1, H2, H3, H4. auto.
Qed.

Lemma push_opt_holds (f : _xcmf) c opts args tok :
  frame_holds f c opts args -> (length opts < OPTSMAX)%nat ->
  exists f', push_opt f tok = Ok f' /\ frame_holds f' c (opts ++ [tok]) args /\
             redirection_file f' = redirection_file f.
Proof.
  intros (Hc & Ho & Ha) Hlt.
  destruct (store_slot_holds _ _ _ _ tok Ho Hlt) as (arr' & Hs & Hh');
    [unfold OPTSMAX; lia|].
  unfold push_opt. rewrite Hs. eexists. split; [reflexivity|].
  split; [|reflexivity]. split; [exact Hc|]. split; [exact Hh'|exact Ha].
Qed.

Lemma push_arg_frame_holds (f : _xcmf) c opts args tok :
  frame_holds f c opts args -> (length args < ARGSMAX)%nat ->
  exists f', push_arg f tok = Ok f' /\ frame_holds f' c opts (args ++ [tok]) /\
             redirection_file f' = redirection_file f.
Proof.
  intros (Hc & Ho & Ha) Hlt.
  destruct (store_slot_holds _ _ _ _ tok Ha Hlt) as (arr' & Hs & Hh');
    [unfold ARGSMAX; lia|].
  unfold push_arg. rewrite Hs. eexists. split; [reflexivity|].
  split; [|reflexivity]. split; [exact Hc|]. split; [exact Ho|exact Hh'].
Qed.

(** The loop on tokens that are all stored, within the capacities: it
    reaches the end of the line with every token in its array. *)
Lemma parse_tokens_stored (toks : list string) : forall cmd c opts0 args0,
  frame_holds cmd c opts0 args0 ->
  Forall (fun t => has_space t = false /\ storable t = true) toks ->
  (length opts0 + length (options_of toks) <= OPTSMAX)%nat ->
  (length args0 + length (arguments_of toks) <= ARGSMAX)%nat ->
  exists cmd' f,
    parse_tokens cmd (cursor_of toks) = Ok (TERMINATED, f, None) /\
    split_embedded cmd' = Ok f /\
    frame_holds cmd' c (opts0 ++ options_of toks) (args0 ++ arguments_of toks) /\
    redirection_file cmd' = redirection_file cmd.
Proof.
  induction toks as [|t rest IH]; intros cmd c opts0 args0 Hh Hall Ho Ha.
  - destruct (split_embedded_ok cmd c (proj1 Hh)) as [f Hf].
    exists cmd, f. rewrite parse_tokens_step. simpl. rewrite Hf.
    rewrite !app_nil_r. auto.
  - inversion Hall as [|? ? [Hsp Hst] Hrest]; subst.
    destruct (storable_tests t Hst) as (E1 & E2 & E3 & E4).
    rewrite parse_tokens_step, (strsep_cursor_of t rest Hsp), E1, E2, E3, E4.
    unfold options_of, arguments_of in *. simpl in *.
    destruct (starts_with_dash t) eqn:Ed; simpl in *.
    + destruct (push_opt_holds cmd c opts0 args0 t Hh ltac:(lia))
        as (cmd1 & Hp & Hh1 & Hr1).
      rewrite Hp.
      destruct (IH cmd1 c (opts0 ++ [t])%list args0 Hh1 Hrest)
        as (cmd' & f & Hpt & Hs & Hf & Hr);
        [rewrite length_app; simpl; lia|lia|].
      exists cmd', f. rewrite <- app_assoc in Hf. simpl in Hf.
      split; [exact Hpt|]. split; [exact Hs|]. split; [exact Hf|congruence].
    + destruct (push_arg_frame_holds cmd c opts0 args0 t Hh ltac:(lia))
        as (cmd1 & Hp & Hh1 & Hr1).
      rewrite Hp.
      destruct (IH cmd1 c opts0 (args0 ++ [t])%list Hh1 Hrest)
        as (cmd' & f & Hpt & Hs & Hf & Hr);
        [lia|rewrite length_app; simpl; lia|].
      exists cmd', f. rewrite <- app_assoc in Hf. simpl in Hf.
      split; [exact Hpt|]. split; [exact Hs|]. split; [exact Hf|congruence].
Qed.

(** The loop on tokens that are all stored, beyond a capacity: the store
    that does not fit is made all the same. *)
Lemma parse_tokens_overflow (toks : list string) : forall cmd c opts0 args0,
  frame_holds cmd c opts0 args0 ->
  Forall (fun t => has_space t = false /\ storable t = true) toks ->
  (OPTSMAX < length opts0 + length (options_of toks) \/
   ARGSMAX < length args0 + length (arguments_of toks))%nat ->
  parse_tokens cmd (cursor_of toks) = Undef HeapOverflow.
Proof.
  induction toks as [|t rest IH]; intros cmd c opts0 args0 Hh Hall Hover.
  - destruct Hh as (_ & Ho & Ha). apply holds_le in Ho, Ha.
    unfold options_of, arguments_of in Hover. simpl in Hover. lia.
  - inversion Hall as [|? ? [Hsp Hst] Hrest]; subst.
    destruct (storable_tests t Hst) as (E1 & E2 & E3 & E4).
    rewrite parse_tokens_step, (strsep_cursor_of t rest Hsp), E1, E2, E3, E4.
    pose proof Hh as (_ & Ho & Ha).
    pose proof (holds_le _ _ _ _ Ho) as Hlo.
    pose proof (holds_le _ _ _ _ Ha) as Hla.
    unfold options_of, arguments_of in *. simpl in Hover.
    destruct (starts_with_dash t) eqn:Ed; simpl in Hover.
    + destruct (Nat.eq_dec (length opts0) OPTSMAX) as [Hfull|Hne].
      * unfold push_opt. now rewrite (store_slot_full _ _ _ _ t Ho Hfull).
      * destruct (push_opt_holds cmd c opts0 args0 t Hh ltac:(lia))
          as (cmd1 & Hp & Hh1 & _).
        rewrite Hp. apply (IH cmd1 c (opts0 ++ [t])%list args0 Hh1 Hrest).
        rewrite length_app. simpl. lia.
    + destruct (Nat.eq_dec (length args0) ARGSMAX) as [Hfull|Hne].
      * unfold push_arg. now rewrite (store_slot_full _ _ _ _ t Ha Hfull).
      * destruct (push_arg_frame_holds cmd c opts0 args0 t Hh ltac:(lia))
          as (cmd1 & Hp & Hh1 & _).
        rewrite Hp. apply (IH cmd1 c opts0 (args0 ++ [t])%list Hh1 Hrest).
        rewrite length_app. simpl. lia.
Qed.

Lemma before_redirection_stored (toks : list string) :
  Forall (fun t => has_space t = false /\ storable t = true) toks ->
  before_redirection (arguments_of toks) = arguments_of toks.
Proof.
  induction 1 as [|t rest [_ Hst] _ IH]; [reflexivity|].
  unfold arguments_of in *. simpl.
  destruct (starts_with_dash t); simpl; [exact IH|].
  destruct (storable_tests t Hst) as (_ & _ & _ & ->). now rewrite IH.
Qed.

Lemma parseInput_join (c : string) (toks : list string) :
  has_space c = false ->
  parseInput (Some (join_tokens (c :: toks))) =
  parse_tokens (fresh_frame c) (cursor_of toks).
Proof.
  intros Hc. unfold parseInput.
  change (Some (join_tokens (c :: toks))) with (cursor_of (c :: toks)).
  now rewrite (strsep_cursor_of c toks Hc).
Qed.

(** X5. A line made of a command (without [>]) and of tokens that are
    options or arguments, at most ten of each, separated by single
    spaces, parses to one [TERMINATED] frame without redirection whose
    arrays hold the options and the arguments, each in the order of the
    line; the synchronous executor then execs the command with all the
    options first and all the arguments after them.  An empty token (two
    separators in a row) is an argument like any other. *)
Theorem X5_parse_command_line (c : string) (toks : list string) :
  has_space c = false -> first_gt c = None ->
  Forall (fun t => has_space t = false /\ storable t = true) toks ->
  (length (options_of toks) <= OPTSMAX)%nat ->
  (length (arguments_of toks) <= ARGSMAX)%nat ->
  exists f,
    parseInput (Some (join_tokens (c :: toks))) = Ok (TERMINATED, f, None) /\
    frame_holds f c (options_of toks) (arguments_of toks) /\
    redirection_file f = None /\
    argv_executeCommand f = Some (c :: options_of toks ++ arguments_of toks).
Proof.
  intros Hc Hgt Hall Ho Ha. rewrite (parseInput_join c toks Hc).
  destruct (parse_tokens_stored toks (fresh_frame c) c [] []
              (fresh_frame_holds c) Hall Ho Ha)
    as (cmd' & f & Hp & Hs & Hf & Hr).
  simpl in Hf, Hr. exists f. split; [exact Hp|].
  assert (Hfc : f = cmd').
  { unfold split_embedded in Hs. rewrite (proj1 Hf), Hgt in Hs. congruence. }
  subst f. split; [exact Hf|]. split; [exact Hr|].
  destruct Hf as (Hcmd & Hho & Hha).
  destruct (argv_of_held_frame _ _ _ _ Hcmd Hho Hha) as [-> _].
  now rewrite (before_redirection_stored toks Hall).
Qed.

(** X6. The same line with more than ten options, or more than ten
    arguments: the parser does not stop at the capacity of the array, and
    the parse is a store outside it. *)
Theorem X6_parse_beyond_capacity (c : string) (toks : list string) :
  has_space c = false ->
  Forall (fun t => has_space t = false /\ storable t = true) toks ->
  (OPTSMAX < length (options_of toks) \/
   ARGSMAX < length (arguments_of toks))%nat ->
  parseInput (Some (join_tokens (c :: toks))) = Undef HeapOverflow.
Proof.
  intros Hc Hall Hover. rewrite (parseInput_join c toks Hc).
  apply (parse_tokens_overflow toks (fresh_frame c) c [] []
           (fresh_frame_holds c) Hall).
  exact Hover.
Qed.

(** ** The command of a frame and the scan for an embedded redirection *)

Lemma string_length_app (a b : string) :
  String.length (a ++ b) = (String.length a + String.length b)%nat.
Proof. induction a as [|x a IH]; simpl; congruence. Qed.

Lemma substring_all (b : string) : substring 0 (String.length b) b = b.
Proof. induction b as [|x b IH]; simpl; congruence. Qed.

Lemma substring_prefix (a b : string) :
  substring 0 (String.length a) (a ++ b) = a.
Proof.
  induction a as [|x a IH]; simpl; [|congruence].
  destruct b; reflexivity.
Qed.

Lemma substring_skip (a b : string) (k n : nat) :
  substring (String.length a + k) n (a ++ b) = substring k n b.
Proof. induction a as [|x a IH]; simpl; [reflexivity|exact IH]. Qed.

Lemma first_gt_split (s : string) (i : nat) :
  first_gt s = Some i ->
  exists a b, s = (a ++ ">" ++ b)%string /\ String.length a = i /\
              first_gt a = None.
Proof.
  revert i. induction s as [|c s IH]; intros i; simpl; [discriminate|].
  destruct (Ascii.eqb c ">") eqn:Ec.
  - intros [= <-]. apply Ascii.eqb_eq in Ec. subst c.
    exists EmptyString, s. auto.
  - destruct (first_gt s) as [j|]; [|discriminate]. intros [= <-].
    destruct (IH j eq_refl) as (a & b & -> & Hl & Ha).
    exists (String c a), b. simpl. rewrite Ec, Ha, Hl. auto.
Qed.

(** What the scan does to a frame whose command token has a [>]: the
    command is cut before the first one, and what follows it, when there
    is anything, becomes the redirection target. *)
Lemma split_embedded_at (cmd : _xcmf) (a b : string) :
  _Command cmd = Some (a ++ ">" ++ b)%string -> first_gt a = None ->
  split_embedded cmd =
  Ok (match b with
      | EmptyString => set_command cmd (Some a)
      | _ => set_redirection (set_command cmd (Some a)) (Some b)
      end).
Proof.
  intros Hc Ha. unfold split_embedded. rewrite Hc.
  assert (Hi : first_gt (a ++ ">" ++ b) = Some (String.length a)).
  { clear Hc. induction a as [|x a IH]; simpl in *; [reflexivity|].
    destruct (Ascii.eqb x ">"); [discriminate|].
    destruct (first_gt a); [discriminate|]. now rewrite IH. }
  rewrite Hi, substring_prefix, string_length_app. simpl.
  replace (S (String.length a)) with (String.length a + 1)%nat by lia.
  rewrite substring_skip. simpl.
  replace (String.length a + S (String.length b) - (String.length a + 1))%nat
    with (String.length b) by lia.
  rewrite substring_all.
  destruct b as [|y b]; simpl.
  - replace (String.length a + 1 - 1)%nat with (String.length a) by lia.
    now rewrite Nat.eqb_refl.
  - destruct (Nat.eqb_spec (String.length a)
                (String.length a + S (S (String.length b)) - 1)); [lia|].
    reflexivity.
Qed.

Lemma push_arg_command cmd tok cmd1 :
  push_arg cmd tok = Ok cmd1 -> _Command cmd1 = _Command cmd.
Proof.
  unfold push_arg. destruct (store_slot _ _ _); [|discriminate].
  now intros [= <-].
Qed.

Lemma push_opt_command cmd tok cmd1 :
  push_opt cmd tok = Ok cmd1 -> _Command cmd1 = _Command cmd.
Proof.
  unfold push_opt. destruct (store_slot _ _ _); [|discriminate].
  now intros [= <-].
Qed.

(** The loop leaves the command alone; the scan runs only when the loop
    reaches the end of the line. *)
Lemma parse_tokens_command cmd cur d f c1 :
  parse_tokens cmd cur = Ok (d, f, c1) ->
  (is_control d = true -> _Command f = _Command cmd) /\
  (d = TERMINATED ->
   exists cmd', _Command cmd' = _Command cmd /\ split_embedded cmd' = Ok f).
Proof.
  funelim (parse_tokens cmd cur); intros Hp; clear Heqcall;
    match goal with Hs : @eq (sigma _) _ _ |- _ => clear Hs end.
  - destruct (String.eqb token _PARALLEL);
      [injection Hp as <- <- _; split; [reflexivity|discriminate]|].
    destruct (String.eqb token _SEQUENTIAL);
      [injection Hp as <- <- _; split; [reflexivity|discriminate]|].
    destruct (String.eqb token _PIPELINE);
      [injection Hp as <- <- _; split; [reflexivity|discriminate]|].
    destruct (String.eqb token _REDIRECTION).
    + destruct (push_arg cmd token) as [cmd1|] eqn:Ep; [|discriminate].
      destruct (redirection_file cmd1); [discriminate|].
      apply push_arg_command in Ep. apply H in Hp. simpl in Hp.
      rewrite Ep in Hp. exact Hp.
    + destruct (starts_with_dash token).
      * destruct (push_opt cmd token) as [cmd1|] eqn:Ep; [|discriminate].
        apply push_opt_command in Ep. apply H0 in Hp.
        rewrite Ep in Hp. exact Hp.
      * destruct (push_arg cmd token) as [cmd1|] eqn:Ep; [|discriminate].
        apply push_arg_command in Ep. apply H0 in Hp.
        rewrite Ep in Hp. exact Hp.
  - destruct (split_embedded cmd) as [cmd1|] eqn:Es; [|discriminate].
    injection Hp as <- <- _. split; [discriminate|].
    intros _. exists cmd. auto.
Qed.

(** X7. The scan for an embedded [>] is made only on the last frame of a
    line.  In a frame that a control operator ends, the command is the
    first token as it stands, [>] included.  In a [TERMINATED] frame the
    command holds no [>]: it is the first token, or the part of it before
    its first [>], and what follows that [>], when not empty, is the
    redirection target. *)
Theorem X7_command_of_parsed_frame (line tok : string) (c0 : option string)
  (d : execution_directive_t) (f : _xcmf) (c1 : option string) :
  strsep (Some line) = (Some tok, c0) ->
  parseInput (Some line) = Ok (d, f, c1) ->
  (is_control d = true -> _Command f = Some tok) /\
  (d = TERMINATED ->
   exists c, _Command f = Some c /\ first_gt c = None /\
     (tok = c \/
      exists t, tok = (c ++ ">" ++ t)%string /\
                (t <> EmptyString -> redirection_file f = Some t))).
Proof.
  intros Hs Hp. unfold parseInput in Hp. rewrite Hs in Hp.
  destruct (parse_tokens_command _ _ _ _ _ Hp) as [Hctl Hterm].
  split; [exact Hctl|]. intros Hd.
  destruct (Hterm Hd) as (cmd' & Hc & Hsplit). simpl in Hc.
  destruct (first_gt tok) as [i|] eqn:Hg.
  - destruct (first_gt_split _ _ Hg) as (a & b & -> & _ & Ha).
    rewrite (split_embedded_at cmd' a b Hc Ha) in Hsplit.
    injection Hsplit as <-. exists a. destruct b as [|y b]; simpl.
    + split; [reflexivity|]. split; [exact Ha|]. right.
      exists EmptyString. split; [reflexivity|contradiction].
    + split; [reflexivity|]. split; [exact Ha|]. right.
      exists (String y b). split; reflexivity.
  - unfold split_embedded in Hsplit. rewrite Hc, Hg in Hsplit.
    injection Hsplit as <-. exists tok. auto.
Qed.

(** ** Redirection tokens on the line *)

Lemma cursor_of_app_cons (t : string) (toks more : list string) :
  cursor_of ((t :: toks) ++ more) = cursor_of (t :: (toks ++ more)).
Proof. reflexivity. Qed.

(** The loop over stored tokens that more tokens follow: it goes on from
    a frame that holds them. *)
Lemma parse_tokens_prefix (toks more : list string) : forall cmd c opts0 args0,
  frame_holds cmd c opts0 args0 ->
  Forall (fun t => has_space t = false /\ storable t = true) toks ->
  (length opts0 + length (options_of toks) <= OPTSMAX)%nat ->
  (length args0 + length (arguments_of toks) <= ARGSMAX)%nat ->
  exists cmd',
    parse_tokens cmd (cursor_of (toks ++ more)) =
      parse_tokens cmd' (cursor_of more) /\
    frame_holds cmd' c (opts0 ++ options_of toks) (args0 ++ arguments_of toks) /\
    redirection_file cmd' = redirection_file cmd.
Proof.
  induction toks as [|t rest IH]; intros cmd c opts0 args0 Hh Hall Ho Ha.
  - exists cmd. rewrite !app_nil_r. auto.
  - inversion Hall as [|? ? [Hsp Hst] Hrest]; subst.
    destruct (storable_tests t Hst) as (E1 & E2 & E3 & E4).
    rewrite cursor_of_app_cons, parse_tokens_step,
      (strsep_cursor_of t (rest ++ more) Hsp), E1, E2, E3, E4.
    unfold options_of, arguments_of in *. simpl in *.
    destruct (starts_with_dash t) eqn:Ed; simpl in *.
    + destruct (push_opt_holds cmd c opts0 args0 t Hh ltac:(lia))
        as (cmd1 & Hp & Hh1 & Hr1).
      rewrite Hp.
      destruct (IH cmd1 c (opts0 ++ [t])%list args0 Hh1 Hrest)
        as (cmd' & Hpt & Hf & Hr);
        [rewrite length_app; simpl; lia|lia|].
      exists cmd'. rewrite <- app_assoc in Hf. simpl in Hf.
      split; [exact Hpt|]. split; [exact Hf|congruence].
    + destruct (push_arg_frame_holds cmd c opts0 args0 t Hh ltac:(lia))
        as (cmd1 & Hp & Hh1 & Hr1).
      rewrite Hp.
      destruct (IH cmd1 c opts0 (args0 ++ [t])%list Hh1 Hrest)
        as (cmd' & Hpt & Hf & Hr);
        [lia|rewrite length_app; simpl; lia|].
      exists cmd'. rewrite <- app_assoc in Hf. simpl in Hf.
      split; [exact Hpt|]. split; [exact Hf|congruence].
Qed.

(** A redirection token met by a frame that has a target and room for
    the token: the target is freed. *)
Lemma parse_tokens_second_redirection cmd c opts args target more :
  frame_holds cmd c opts args -> (length args < ARGSMAX)%nat ->
  redirection_file cmd = Some target ->
  parse_tokens cmd (cursor_of (_REDIRECTION :: more)) = Undef InvalidFree.
Proof.
  intros Hh Hlt Hr.
  rewrite parse_tokens_step, (strsep_cursor_of _REDIRECTION more eq_refl).
  simpl.
  destruct (push_arg_frame_holds cmd c opts args _REDIRECTION Hh Hlt)
    as (cmd1 & Hp & _ & Hr1).
  rewrite Hp, Hr1, Hr. reflexivity.
Qed.

(** A redirection token met by a frame without a target: the token is
    stored as an argument and the next token, whatever it is, becomes
    the target. *)
Lemma parse_tokens_first_redirection cmd c opts args t more :
  frame_holds cmd c opts args -> (length args < ARGSMAX)%nat ->
  redirection_file cmd = None -> has_space t = false ->
  exists cmd1,
    parse_tokens cmd (cursor_of (_REDIRECTION :: t :: more)) =
      parse_tokens cmd1 (cursor_of more) /\
    frame_holds cmd1 c opts (args ++ [_REDIRECTION]) /\
    redirection_file cmd1 = Some t.
Proof.
  intros Hh Hlt Hr Ht.
  rewrite parse_tokens_step, (strsep_cursor_of _REDIRECTION (t :: more) eq_refl).
  simpl String.eqb. cbv iota.
  destruct (push_arg_frame_holds cmd c opts args _REDIRECTION Hh Hlt)
    as (cmd1 & Hp & Hh1 & Hr1).
  rewrite Hp, Hr1, Hr, (strsep_cursor_of t more Ht). simpl fst. simpl snd.
  exists (set_redirection cmd1 (Some t)).
  split; [reflexivity|]. split; [exact Hh1|reflexivity].
Qed.

(** X8. A frame with two redirection tokens of its own: after
    [command > target], tokens that are stored, and a second [>] that
    still fits the array of arguments, the parser frees the first target,
    which is a pointer into the line buffer and not an allocation. *)
Theorem X8_second_redirection_frees_target
  (c t : string) (mid more : list string) :
  has_space c = false -> has_space t = false ->
  Forall (fun x => has_space x = false /\ storable x = true) mid ->
  (length (options_of mid) <= OPTSMAX)%nat ->
  (length (arguments_of mid) + 2 <= ARGSMAX)%nat ->
  parseInput
    (Some (join_tokens (c :: _REDIRECTION :: t :: mid ++ _REDIRECTION :: more)))
  = Undef InvalidFree.
Proof.
  intros Hc Ht Hmid Ho Ha.
  rewrite (parseInput_join c _ Hc).
  destruct (parse_tokens_first_redirection (fresh_frame c) c [] [] t
              (mid ++ _REDIRECTION :: more) (fresh_frame_holds c))
    as (cmd1 & -> & Hh1 & Hr1);
    [unfold ARGSMAX; simpl; lia|reflexivity|exact Ht|].
  destruct (parse_tokens_prefix mid (_REDIRECTION :: more) cmd1 c [] _ Hh1 Hmid)
    as (cmd2 & -> & Hh2 & Hr2); [simpl; lia|simpl; lia|].
  apply (parse_tokens_second_redirection cmd2 c _ _ t more Hh2);
    [|now rewrite Hr2].
  rewrite length_app. simpl. lia.
Qed.

Lemma has_space_app (a b : string) :
  has_space (a ++ b) = has_space a || has_space b.
Proof.
  induction a as [|x a IH]; simpl; [reflexivity|].
  rewrite IH. now rewrite orb_assoc.
Qed.

(** X9. The two ways to write a redirection on the last frame of a line
    come to the same for the program that is run: for a command [c]
    (without separator or [>]) and a target [t] (not empty, without
    separator), the line "c > t" and the line "c>t" both parse to a
    [TERMINATED] frame with command [c] and target [t], and the child of
    the synchronous executor is the same for both: stdout redirected to
    [t], then exec of [c] with argv [c] alone. *)
Theorem X9_spaced_and_embedded_redirection (c t : string) :
  has_space c = false -> first_gt c = None ->
  has_space t = false -> t <> EmptyString ->
  exists f1 f2,
    parseInput (Some (c ++ " > " ++ t)) = Ok (TERMINATED, f1, None) /\
    parseInput (Some (c ++ ">" ++ t)) = Ok (TERMINATED, f2, None) /\
    _Command f1 = Some c /\ _Command f2 = Some c /\
    redirection_file f1 = Some t /\ redirection_file f2 = Some t /\
    argv_executeCommand f1 = Some [c] /\ argv_executeCommand f2 = Some [c] /\
    forall s, child_executeCommand f1 s = child_executeCommand f2 s.
Proof.
  intros Hc Hgt Ht Hne.
  assert (H1 : exists f1,
             parseInput (Some (c ++ " > " ++ t)) = Ok (TERMINATED, f1, None) /\
             _Command f1 = Some c /\ redirection_file f1 = Some t /\
             argv_executeCommand f1 = Some [c]).
  { change (c ++ " > " ++ t)%string
      with (join_tokens [c; _REDIRECTION; t]).
    rewrite (parseInput_join c _ Hc).
    destruct (parse_tokens_first_redirection (fresh_frame c) c [] [] t []
                (fresh_frame_holds c))
      as (cmd1 & -> & Hh1 & Hr1);
      [unfold ARGSMAX; simpl; lia|reflexivity|exact Ht|].
    rewrite parse_tokens_step. simpl strsep. cbv iota.
    unfold split_embedded. rewrite (proj1 Hh1), Hgt.
    exists cmd1. split; [reflexivity|]. split; [exact (proj1 Hh1)|].
    split; [exact Hr1|]. destruct Hh1 as (Hcmd & Hho & Hha).
    destruct (argv_of_held_frame _ _ _ _ Hcmd Hho Hha) as [-> _].
    reflexivity. }
  assert (H2 : exists f2,
             parseInput (Some (c ++ ">" ++ t)) = Ok (TERMINATED, f2, None) /\
             _Command f2 = Some c /\ redirection_file f2 = Some t /\
             argv_executeCommand f2 = Some [c]).
  { assert (Hsp : has_space (c ++ ">" ++ t) = false).
    { rewrite has_space_app, Hc. simpl. exact Ht. }
    unfold parseInput, strsep. rewrite (strsep_scan_whole _ Hsp).
    rewrite parse_tokens_step. simpl strsep. cbv iota.
    rewrite (split_embedded_at (fresh_frame (c ++ ">" ++ t)) c t eq_refl Hgt).
    destruct t as [|y t]; [contradiction|].
    eexists. split; [reflexivity|]. repeat split. }
  destruct H1 as (f1 & Hp1 & Hc1 & Hr1 & Ha1).
  destruct H2 as (f2 & Hp2 & Hc2 & Hr2 & Ha2).
  exists f1, f2. repeat (split; [assumption|]).
  intros s. unfold child_executeCommand.
  now rewrite Hr1, Hr2, Ha1, Ha2, Hc1, Hc2.
Qed.

(** ** Pipelines, builtins and whole lines *)

Lemma new_events_app (s s' : shell) (evs : list event) :
  trace s' = (trace s ++ evs)%list -> new_events s s' = evs.
Proof. intros H. unfold new_events. rewrite H. apply drop_app_length. Qed.

Lemma pipeReset_armed (s : shell) (r w : Z) :
  _pipe_arr s = (r, w) -> r <> -1 -> w <> -1 ->
  trace (pipeReset s) = (trace s ++ [EvClose r; EvClose w])%list.
Proof.
  destruct s as [p arr c nf np t]. simpl. intros -> Hr Hw.
  unfold pipeReset. simpl.
  destruct (Z.eqb_spec r (-1)); [contradiction|]. simpl.
  destruct (Z.eqb_spec w (-1)); [contradiction|]. simpl.
  now rewrite <- app_assoc.
Qed.

Lemma no_stdin_in_pipeline_child (f : _xcmf) (s : shell) (fd : Z) :
  ~ In (CDup2 fd STDIN_FILENO) (child_executeCommandPipe f s).
Proof.
  unfold child_executeCommandPipe.
  destruct (argv_executeCommandPipe f); simpl; intros H;
    repeat (destruct H as [H|H]; [discriminate|]); exact H.
Qed.

(** The reset closes stored descriptors and nothing else. *)
Lemma pipeReset_trace (s : shell) :
  exists closes,
    trace (pipeReset s) = (trace s ++ closes)%list /\
    forall e, In e closes ->
              e = EvClose (fst (_pipe_arr s)) \/ e = EvClose (snd (_pipe_arr s)).
Proof.
  destruct s as [p [a b] c nf np t]. unfold pipeReset. simpl.
  destruct (a =? -1); simpl; destruct (b =? -1); simpl.
  - exists []. rewrite app_nil_r. split; [reflexivity|]. intros e [].
  - exists [EvClose b]. split; [reflexivity|]. intros e [<-|[]]. auto.
  - exists [EvClose a]. split; [reflexivity|]. intros e [<-|[]]. auto.
  - exists [EvClose a; EvClose b]. rewrite <- app_assoc.
    split; [reflexivity|]. intros e [<-|[<-|[]]]; auto.
Qed.

Section LineProperties.

Variable env : environment.

(** The pipeline executor when the pipe and the fork succeed. *)
Lemma executeCommandPipe_armed (f : _xcmf) (s : shell) (r w : Z) :
  env_pipe env (n_pipe s) = Some (r, w) ->
  env_fork env (n_fork s) = true ->
  exists s1,
    executeCommandPipe env f s = Running s1 /\
    is_piped s1 = true /\ _pipe_arr s1 = (r, w) /\
    n_fork s1 = S (n_fork s) /\ n_pipe s1 = S (n_pipe s) /\ cwd s1 = cwd s /\
    trace s1 =
      (trace s ++
       [EvPipe (Some (r, w));
        EvFork (Some (ChildExec
                        (child_executeCommandPipe f
                           (set_pipe_arr (r, w)
                              (emit (EvPipe (Some (r, w))) (count_pipe s))))));
        EvClose w; EvWaitpid])%list.
Proof.
  intros Hp Hf. unfold executeCommandPipe, sys_fork. rewrite Hp. simpl.
  rewrite Hf. eexists. split; [reflexivity|]. simpl.
  repeat split. now rewrite <- !app_assoc.
Qed.

(** The synchronous executor when the command is not empty and the fork
    succeeds. *)
Lemma executeCommand_forked (f : _xcmf) (s : shell) (c : string) :
  _Command f = Some c -> c <> EmptyString ->
  env_fork env (n_fork s) = true ->
  exists s' closes,
    executeCommand env f s = Running s' /\
    relay_idle s' /\
    trace s' =
      (trace s ++
       [EvFork (Some (ChildExec (child_executeCommand f s))); EvWaitpid] ++
       closes)%list /\
    forall e, In e closes ->
              e = EvClose (fst (_pipe_arr s)) \/ e = EvClose (snd (_pipe_arr s)).
Proof.
  intros Hc Hne Hf. unfold executeCommand, sys_fork. rewrite Hc, Hf.
  destruct c as [|x c]; [contradiction|]. simpl Nat.eqb. cbv iota.
  match goal with |- context [pipeReset ?st] =>
    destruct (pipeReset_trace st) as (closes & Ht & Hcl) end.
  eexists. exists closes. split; [reflexivity|].
  split; [apply pipeReset_idle|]. split; [|exact Hcl].
  rewrite Ht. simpl. now rewrite <- !app_assoc.
Qed.

(** X10. A pipeline of two stages.  When the pipe and both forks
    succeed, the first stage leaves the relay armed with the descriptors
    of the pipe; the child of the second stage closes the write end, puts
    the read end on its stdin and execs its argv; the interpreter then
    resets the relay, which leaves it idle.  The interpreter closes the
    write end twice: after the first fork, and again in the reset. *)
Theorem X10_two_stage_pipeline
  (f1 f2 : _xcmf) (s : shell) (r w : Z) (c2 : string) (argv2 : list string) :
  env_pipe env (n_pipe s) = Some (r, w) ->
  env_fork env (n_fork s) = true ->
  env_fork env (S (n_fork s)) = true ->
  r <> -1 -> w <> -1 ->
  _Command f2 = Some c2 -> c2 <> EmptyString ->
  argv_executeCommand f2 = Some argv2 ->
  exists s1 s2,
    executeCommandPipe env f1 s = Running s1 /\
    is_piped s1 = true /\ _pipe_arr s1 = (r, w) /\
    executeCommand env f2 s1 = Running s2 /\
    relay_idle s2 /\
    new_events s1 s2 =
      [EvFork (Some (ChildExec
         (match redirection_file f2 with
          | Some path => [CRedirect path STD_PERMISSIONS]
          | None => []
          end ++
          [CClose w; CDup2 r STDIN_FILENO; CClose r;
           CExecvp (Some c2) argv2 (Some "Shell: Incorrect command")])));
       EvWaitpid; EvClose r; EvClose w] /\
    In (EvClose w) (new_events s s1).
Proof.
  intros Hp Hf1 Hf2 Hr Hw Hc2 Hne Hargv.
  destruct (executeCommandPipe_armed f1 s r w Hp Hf1)
    as (s1 & He1 & Hpiped & Harr & Hnf & _ & _ & Ht1).
  exists s1. eexists. split; [exact He1|]. split; [exact Hpiped|].
  split; [exact Harr|].
  unfold executeCommand, sys_fork. rewrite Hc2, Hnf, Hf2.
  destruct c2 as [|x c2]; [contradiction|]. simpl Nat.eqb. cbv iota.
  split; [reflexivity|]. split; [apply pipeReset_idle|]. split.
  - apply new_events_app.
    rewrite (pipeReset_armed _ r w); [|exact Harr|exact Hr|exact Hw].
    simpl. unfold child_executeCommand.
    rewrite Hargv, Hpiped, Harr, Hc2. simpl. now rewrite <- !app_assoc.
  - rewrite (new_events_app s s1 _ Ht1). simpl. auto.
Qed.

(** X11. A pipeline of three stages.  The second stage goes through the
    pipeline executor, whose child never puts anything on its stdin; its
    call of pipe overwrites the descriptors of the first pipe in the
    relay, and the read end of the first pipe is never closed by the
    interpreter: not by the second stage, not by the third, not by the
    reset that leaves the relay idle. *)
Theorem X11_three_stage_pipeline
  (f1 f2 f3 : _xcmf) (s : shell) (r1 w1 r2 w2 : Z) (c3 : string) :
  env_pipe env (n_pipe s) = Some (r1, w1) ->
  env_pipe env (S (n_pipe s)) = Some (r2, w2) ->
  env_fork env (n_fork s) = true ->
  env_fork env (S (n_fork s)) = true ->
  env_fork env (S (S (n_fork s))) = true ->
  r1 <> w1 -> r1 <> r2 -> r1 <> w2 ->
  _Command f3 = Some c3 -> c3 <> EmptyString ->
  exists s1 s2 s3 script2,
    executeCommandPipe env f1 s = Running s1 /\
    executeCommandPipe env f2 s1 = Running s2 /\
    executeCommand env f3 s2 = Running s3 /\
    _pipe_arr s1 = (r1, w1) /\ _pipe_arr s2 = (r2, w2) /\
    In (EvFork (Some (ChildExec script2))) (new_events s1 s2) /\
    (forall fd, ~ In (CDup2 fd STDIN_FILENO) script2) /\
    ~ In (EvClose r1) (new_events s s3) /\
    relay_idle s3.
Proof.
  intros Hp1 Hp2 Hf1 Hf2 Hf3 Hrw Hrr Hrw2 Hc3 Hne.
  destruct (executeCommandPipe_armed f1 s r1 w1 Hp1 Hf1)
    as (s1 & He1 & _ & Harr1 & Hnf1 & Hnp1 & _ & Ht1).
  rewrite <- Hnp1 in Hp2. rewrite <- Hnf1 in Hf2, Hf3.
  destruct (executeCommandPipe_armed f2 s1 r2 w2 Hp2 Hf2)
    as (s2 & He2 & Hpiped2 & Harr2 & Hnf2 & _ & _ & Ht2).
  rewrite <- Hnf2 in Hf3.
  destruct (executeCommand_forked f3 s2 c3 Hc3 Hne Hf3)
    as (s3 & closes & He3 & Hidle & Ht3 & Hcl).
  rewrite Harr2 in Hcl. simpl in Hcl.
  exists s1, s2, s3. eexists.
  split; [exact He1|]. split; [exact He2|]. split; [exact He3|].
  split; [exact Harr1|]. split; [exact Harr2|].
  split; [rewrite (new_events_app s1 s2 _ Ht2); simpl; eauto|].
  split; [apply no_stdin_in_pipeline_child|].
  split; [|exact Hidle].
  erewrite new_events_app;
    [|rewrite Ht3, Ht2, Ht1, <- !app_assoc; simpl; reflexivity].
  intros H. simpl in H.
  repeat (destruct H as [H|H]; [try discriminate; congruence|]).
  apply Hcl in H. destruct H as [H|H]; congruence.
Qed.

End LineProperties.

Section BuiltinProperties.

Variable env : environment.

Lemma builtin_effect_same (s : shell) : builtin_effect s s.
Proof.
  split; [rewrite new_events_same; intros e []|]. repeat split.
Qed.

Lemma builtin_effect_do_chdir (path : string) (s : shell) :
  builtin_effect s (do_chdir env path s).
Proof.
  unfold do_chdir. destruct (env_chdir env (cwd s) path); split;
    try (repeat split; fail).
  - erewrite new_events_app by (simpl; reflexivity).
    intros e [<-|[]]. exact I.
  - erewrite new_events_app by (simpl; rewrite <- app_assoc; reflexivity).
    intros e [<-|[<-|[]]]; exact I.
Qed.

Lemma builtin_effect_join_cwd (suffix : string) (s : shell) :
  exists s', join_cwd env suffix s = Running s' /\ builtin_effect s s'.
Proof.
  unfold join_cwd. destruct (cwd s) as [c|].
  - destruct (_ >=? _); eexists; (split; [reflexivity|]).
    + apply builtin_effect_same.
    + apply builtin_effect_do_chdir.
  - eexists. split; [reflexivity|]. split; [|repeat split].
    rewrite new_events_emit. intros e [<-|[]]. exact I.
Qed.

(** X12. cd is taken before the directive is looked at, and runs in the
    interpreter itself: whatever the directive of a [cd] frame
    (sequential, parallel or pipeline), its dispatch forks nothing, opens
    no pipe, leaves the relay as it was, and neither breaks out of the
    loop, nor returns from main, nor calls exit. *)
Theorem X12_cd_runs_in_process
  (d : execution_directive_t) (f : _xcmf) (line : option string) (s : shell) :
  _Command f = Some CMD_CD ->
  dispatch env d f line s = changeDirectory env f s /\
  builtin_effect s (state_of (dispatch env d f line s)) /\
  (forall s', dispatch env d f line s <> Broken s') /\
  (forall code s', dispatch env d f line s <> Returned code s') /\
  (forall code s', dispatch env d f line s <> Exited code s').
Proof.
  intros Hc. unfold dispatch. rewrite Hc. simpl.
  split; [reflexivity|]. split.
  - unfold changeDirectory. destruct (_Arg_Cnt f =? 0).
    + destruct (env_home env); simpl.
      * apply builtin_effect_do_chdir.
      * apply builtin_effect_same.
    + destruct (read_slot (_Args f) 0) as [a|]; simpl;
        [|apply builtin_effect_same].
      destruct (String.eqb a "..");
        match goal with |- context [join_cwd env ?x s] =>
          destruct (builtin_effect_join_cwd x s) as (s' & -> & He) end;
        exact He.
  - repeat split; intros; unfold changeDirectory, join_cwd;
      repeat match goal with
             | |- context [match ?x with _ => _ end] => destruct x
             end; discriminate.
Qed.

(** X13. cd when getcwd fails: with an argument the failure is reported
    and chdir is not called, so the directory stays unknown; without an
    argument the working directory is not asked for, and cd goes to the
    home directory as usual. *)
Theorem X13_cd_without_working_directory (f : _xcmf) (s : shell) :
  cwd s = None -> argument_readable f ->
  exists s',
    changeDirectory env f s = Running s' /\
    match cd_argument f with
    | Some _ => s' = emit (EvPerror ERR_GETCWD) s /\ cwd s' = None /\
                new_events s s' = [EvPerror ERR_GETCWD]
    | None =>
        match env_home env with
        | Some home => chdir_outcome env home s s'
        | None => s' = s
        end
    end.
Proof.
  intros Hc Hr. unfold changeDirectory, cd_argument.
  destruct (_Arg_Cnt f =? 0) eqn:E0.
  - destruct (env_home env) as [h|]; eexists; (split; [reflexivity|]).
    + apply do_chdir_outcome.
    + reflexivity.
  - destruct Hr as [Hr|[a Ha]]; [apply Z.eqb_neq in E0; contradiction|].
    rewrite Ha. unfold join_cwd. rewrite Hc.
    destruct (String.eqb a ".."); eexists; (split; [reflexivity|]);
      (split; [reflexivity|]); (split; [exact Hc|apply new_events_emit]).
Qed.

(** X14. [exit] as the last frame of a line: whatever frames the loop ran
    before it, the interpreter prints its message and returns 0 from
    main, with nothing else done after the message. *)
Theorem X14_exit_ends_the_interpreter
  (input : string) (cur : option string) (s0 s : shell)
  (d : execution_directive_t) (f : _xcmf) :
  loop_reaches env (Some input) s0 cur s ->
  parseInput cur = Ok (d, f, None) ->
  _Command f = Some CMD_EXIT ->
  run_line env (Some input) s0 =
    Returned 0 (emit (EvPrintf "Exiting shell...") s).
Proof.
  intros Hr Hp Hc.
  rewrite (loop_reaches_run env _ _ _ _ Hr), run_line_step, Hp.
  unfold dispatch. rewrite Hc. simpl.
  destruct (loop_again d); reflexivity.
Qed.


End BuiltinProperties.

(** ** The preparation of a line *)

Lemma spaces_length (n : nat) : String.length (spaces n) = n.
Proof. induction n as [|n IH]; simpl; congruence. Qed.

Lemma spaces_app (a b : nat) : (spaces a ++ spaces b)%string = spaces (a + b).
Proof. induction a as [|a IH]; simpl; congruence. Qed.

Lemma leading_spaces_skip (a : nat) (rest : string) :
  starts_with_space rest = false ->
  leading_spaces (spaces a ++ rest) = a.
Proof.
  intros Hr. induction a as [|a IH]; simpl.
  - destruct rest as [|c r]; [reflexivity|]. simpl in *. now rewrite Hr.
  - now rewrite IH.
Qed.

Lemma substring_after_spaces (a n : nat) (rest : string) :
  substring a n (spaces a ++ rest) = substring 0 n rest.
Proof. induction a as [|a IH]; simpl; [reflexivity|exact IH]. Qed.

(** [leftTrim] takes the leading spaces off, and only them. *)
Lemma leftTrim_spaces (a : nat) (rest : string) :
  starts_with_space rest = false -> leftTrim (spaces a ++ rest) = rest.
Proof.
  intros Hr. unfold leftTrim. rewrite (leading_spaces_skip a rest Hr).
  destruct (Nat.ltb_spec 0 a) as [Hpos|Hzero].
  - rewrite substring_after_spaces, string_length_app, spaces_length.
    replace (a + String.length rest - a)%nat with (String.length rest) by lia.
    apply substring_all.
  - replace a with 0%nat by lia. reflexivity.
Qed.

Lemma get_skip (a b : string) (k : nat) :
  String.get (String.length a + k) (a ++ b) = String.get k b.
Proof. induction a as [|x a IH]; simpl; [reflexivity|exact IH]. Qed.

Lemma get_spaces (n k : nat) :
  (k < n)%nat -> String.get k (spaces n) = Some " "%char.
Proof.
  revert k. induction n as [|n IH]; intros k Hk; [lia|].
  destruct k as [|k]; simpl; [reflexivity|]. apply IH. lia.
Qed.

Lemma get_last_not_space (core rest : string) :
  core <> EmptyString -> ends_with_space core = false ->
  exists c, String.get (String.length core - 1) (core ++ rest) = Some c /\
            Ascii.eqb c " "%char = false.
Proof.
  induction core as [|x core IH]; intros Hne He; [contradiction|].
  destruct core as [|y core].
  - exists x. simpl in *. auto.
  - destruct IH as (c & Hg & Hc); [discriminate|exact He|].
    exists c. split; [|exact Hc].
    simpl in *. destruct (String.length core); exact Hg.
Qed.

Lemma rightTrim_scan_S (str : string) (k : nat) :
  rightTrim_scan str (S k) =
  match String.get k str with
  | Some c => if Ascii.eqb c " "%char then rightTrim_scan str k else S k
  | None => S k
  end.
Proof. reflexivity. Qed.

Lemma rightTrim_scan_core (core : string) (b j : nat) :
  ends_with_space core = false -> (j <= b)%nat ->
  rightTrim_scan (core ++ spaces b) (String.length core + j) = String.length core.
Proof.
  intros He. induction j as [|j IH]; intros Hj.
  - rewrite Nat.add_0_r. destruct core as [|x core]; [reflexivity|].
    destruct (get_last_not_space (String x core) (spaces b)) as (c & Hg & Hc);
      [discriminate|exact He|].
    simpl String.length in *.
    replace (S (String.length core) - 1)%nat with (String.length core) in Hg
      by lia.
    rewrite rightTrim_scan_S, Hg, Hc. reflexivity.
  - rewrite Nat.add_succ_r, rightTrim_scan_S.
    rewrite get_skip, (get_spaces b j) by lia. simpl. apply IH. lia.
Qed.

(** [rightTrim] takes the trailing spaces off, and only them. *)
Lemma rightTrim_spaces (core : string) (b : nat) :
  ends_with_space core = false -> rightTrim (core ++ spaces b) = core.
Proof.
  intros He. unfold rightTrim.
  rewrite string_length_app, spaces_length.
  rewrite (rightTrim_scan_core core b b He) by lia.
  apply substring_prefix.
Qed.

(** The newline that ends the text of getline is taken off. *)
Lemma strip_newline_end (x : string) :
  strip_newline (x ++ String "010"%char EmptyString) = x.
Proof.
  unfold strip_newline. rewrite string_length_app. simpl String.length.
  replace (String.length x + 1 - 1)%nat with (String.length x) by lia.
  rewrite <- (Nat.add_0_r (String.length x)) at 1.
  rewrite get_skip. simpl. apply substring_prefix.
Qed.

Lemma starts_with_space_app (core rest : string) :
  core <> EmptyString ->
  starts_with_space (core ++ rest) = starts_with_space core.
Proof. destruct core; [contradiction|reflexivity]. Qed.

Lemma trim_core (a b : nat) (core : string) :
  starts_with_space core = false -> ends_with_space core = false ->
  rightTrim (leftTrim (spaces a ++ core ++ spaces b)) = core.
Proof.
  intros Hs He. destruct core as [|x core].
  - simpl append. rewrite spaces_app.
    rewrite <- (string_app_empty (spaces (a + b))).
    rewrite leftTrim_spaces by reflexivity. reflexivity.
  - rewrite leftTrim_spaces.
    + apply rightTrim_spaces. exact He.
    + rewrite starts_with_space_app by discriminate. exact Hs.
Qed.

(** X16. What main hands to the parser.  For a text of getline made of
    spaces, a core that neither starts nor ends with a space, more
    spaces and the final newline, the line prepared by lines 443-448 is
    the core, as it stands: the newline and the spaces around the core
    are taken off, and spaces inside the core are kept, doubled ones
    too. *)
Theorem X16_prepare_line_core (a b : nat) (core : string) :
  starts_with_space core = false -> ends_with_space core = false ->
  rightTrim (leftTrim (spaces a ++ core ++ spaces b)) = core /\
  prepare_line (spaces a ++ core ++ spaces b ++ String "010"%char EmptyString)
    = core.
Proof.
  intros Hs He. split; [apply trim_core; assumption|].
  unfold prepare_line.
  replace (spaces a ++ core ++ spaces b ++ String "010"%char EmptyString)%string
    with ((spaces a ++ core ++ spaces b) ++ String "010"%char EmptyString)%string
    by (now rewrite !string_app_assoc).
  rewrite strip_newline_end. apply trim_core; assumption.
Qed.

(** X17. A blank line does nothing: when the text of getline is only
    spaces and the newline, the prepared line is empty, its parse is a
    [TERMINATED] frame with the empty command, and the loop of main
    leaves the interpreter as it was, without a fork and without a
    diagnostic. *)
Theorem X17_blank_line (env : environment) (n : nat) (s : shell) :
  prepare_line (spaces n ++ String "010"%char EmptyString) = EmptyString /\
  run_line env
    (Some (prepare_line (spaces n ++ String "010"%char EmptyString))) s
    = Running s.
Proof.
  assert (H : prepare_line (spaces n ++ String "010"%char EmptyString)
              = EmptyString).
  { unfold prepare_line. rewrite strip_newline_end.
    rewrite <- (string_app_empty (spaces n)).
    rewrite leftTrim_spaces by reflexivity. reflexivity. }
  split; [exact H|]. rewrite H, run_line_step. reflexivity.
Qed.

(** ** Instances of the further properties *)

Lemma X2_parse_consumes_witness :
  parseInput (Some "ls -l ## pwd")
    = Ok (SEQUENTIAL, parsed_frame "ls -l ## pwd", Some "pwd") /\
  (cursor_size (Some "pwd") < cursor_size (Some "ls -l ## pwd"))%nat /\
  (forall rest, Some "pwd" = Some rest ->
     exists consumed, "ls -l ## pwd" = (consumed ++ " " ++ rest)%string).
Proof.
  assert (H : parseInput (Some "ls -l ## pwd")
              = Ok (SEQUENTIAL, parsed_frame "ls -l ## pwd", Some "pwd"))
    by (vm_compute; reflexivity).
  split; [exact H|].
  exact (X2_parse_consumes "ls -l ## pwd" SEQUENTIAL
           (parsed_frame "ls -l ## pwd") (Some "pwd") H).
Defined.

Lemma X3_parse_directive_witness :
  parseInput (Some "ls -l ## pwd")
    = Ok (SEQUENTIAL, parsed_frame "ls -l ## pwd", Some "pwd") /\
  SEQUENTIAL <> INIT /\
  (SEQUENTIAL = EXCEPTION <-> Some "ls -l ## pwd" = None) /\
  (forall op, operator_token SEQUENTIAL = Some op ->
     exists line before,
       Some "ls -l ## pwd" = Some line /\
       line = (before ++ " " ++ op ++ cursor_suffix (Some "pwd"))%string).
Proof.
  assert (H : parseInput (Some "ls -l ## pwd")
              = Ok (SEQUENTIAL, parsed_frame "ls -l ## pwd", Some "pwd"))
    by (vm_compute; reflexivity).
  split; [exact H|].
  destruct (X3_parse_directive (Some "ls -l ## pwd") SEQUENTIAL
              (parsed_frame "ls -l ## pwd") (Some "pwd") H)
    as (H1 & H2 & _ & _ & H5).
  split; [exact H1|]. split; [exact H2|exact H5].
Defined.

Lemma X4_parsed_frame_well_formed_witness :
  parseInput (Some "ls -l a > out.txt")
    = Ok (TERMINATED, parsed_frame "ls -l a > out.txt", None) /\
  exists c opts args,
    frame_holds (parsed_frame "ls -l a > out.txt") c opts args /\
    (length opts <= OPTSMAX)%nat /\ (length args <= ARGSMAX)%nat /\
    Forall (fun t => starts_with_dash t = true) opts /\
    Forall (fun t => starts_with_dash t = false) args /\
    argv_executeCommand (parsed_frame "ls -l a > out.txt")
      = Some (c :: opts ++ before_redirection args) /\
    argv_executeCommandPipe (parsed_frame "ls -l a > out.txt")
      = Some (c :: opts ++ args).
Proof.
  assert (H : parseInput (Some "ls -l a > out.txt")
              = Ok (TERMINATED, parsed_frame "ls -l a > out.txt", None))
    by (vm_compute; reflexivity).
  split; [exact H|].
  exact (X4_parsed_frame_well_formed "ls -l a > out.txt" TERMINATED
           (parsed_frame "ls -l a > out.txt") None H).
Defined.

Lemma stored_tokens_example : stored_tokens ["a"; "-l"; ""; "b"].
Proof. repeat constructor. Qed.

(** "ls a -l  b", with a doubled space: argv is ls, -l, a, the empty
    string, b. *)
Lemma X5_parse_command_line_witness :
  has_space "ls" = false /\ first_gt "ls" = None /\
  stored_tokens ["a"; "-l"; ""; "b"] /\
  join_tokens ["ls"; "a"; "-l"; ""; "b"] = "ls a -l  b" /\
  exists f,
    parseInput (Some "ls a -l  b") = Ok (TERMINATED, f, None) /\
    frame_holds f "ls" ["-l"] ["a"; ""; "b"] /\
    redirection_file f = None /\
    argv_executeCommand f = Some ["ls"; "-l"; "a"; ""; "b"].
Proof.
  split; [reflexivity|]. split; [reflexivity|].
  split; [exact stored_tokens_example|]. split; [reflexivity|].
  apply (X5_parse_command_line "ls" ["a"; "-l"; ""; "b"]);
    try reflexivity;
    [exact stored_tokens_example|vm_compute; lia|vm_compute; lia].
Defined.

Lemma stored_tokens_eleven :
  stored_tokens ["1"; "2"; "3"; "4"; "5"; "6"; "7"; "8"; "9"; "10"; "11"].
Proof. repeat constructor. Qed.

Lemma X6_parse_beyond_capacity_witness :
  has_space "echo" = false /\
  stored_tokens ["1"; "2"; "3"; "4"; "5"; "6"; "7"; "8"; "9"; "10"; "11"] /\
  (ARGSMAX < length (arguments_of
      ["1"; "2"; "3"; "4"; "5"; "6"; "7"; "8"; "9"; "10"; "11"]))%nat /\
  parseInput (Some "echo 1 2 3 4 5 6 7 8 9 10 11") = Undef HeapOverflow.
Proof.
  assert (H : (ARGSMAX < length (arguments_of
      ["1"; "2"; "3"; "4"; "5"; "6"; "7"; "8"; "9"; "10"; "11"]))%nat)
    by (vm_compute; lia).
  split; [reflexivity|]. split; [exact stored_tokens_eleven|].
  split; [exact H|].
  apply (X6_parse_beyond_capacity "echo"
           ["1"; "2"; "3"; "4"; "5"; "6"; "7"; "8"; "9"; "10"; "11"]);
    [reflexivity|exact stored_tokens_eleven|right; exact H].
Defined.

(** "ls>out ## pwd": the first frame keeps "ls>out" as its command. *)
Lemma X7_command_of_parsed_frame_witness :
  strsep (Some "ls>out ## pwd") = (Some "ls>out", Some "## pwd") /\
  parseInput (Some "ls>out ## pwd")
    = Ok (SEQUENTIAL, parsed_frame "ls>out ## pwd", Some "pwd") /\
  (is_control SEQUENTIAL = true ->
   _Command (parsed_frame "ls>out ## pwd") = Some "ls>out").
Proof.
  assert (H1 : strsep (Some "ls>out ## pwd") = (Some "ls>out", Some "## pwd"))
    by reflexivity.
  assert (H2 : parseInput (Some "ls>out ## pwd")
               = Ok (SEQUENTIAL, parsed_frame "ls>out ## pwd", Some "pwd"))
    by (vm_compute; reflexivity).
  split; [exact H1|]. split; [exact H2|].
  exact (proj1 (X7_command_of_parsed_frame "ls>out ## pwd" "ls>out"
                  (Some "## pwd") SEQUENTIAL (parsed_frame "ls>out ## pwd")
                  (Some "pwd") H1 H2)).
Defined.

Lemma stored_tokens_one : stored_tokens ["b"].
Proof. repeat constructor. Qed.

(** "ls > a b > c". *)
Lemma X8_second_redirection_frees_target_witness :
  has_space "ls" = false /\ has_space "a" = false /\ stored_tokens ["b"] /\
  join_tokens ("ls" :: _REDIRECTION :: "a" :: ["b"] ++ _REDIRECTION :: ["c"])
    = "ls > a b > c" /\
  parseInput (Some "ls > a b > c") = Undef InvalidFree.
Proof.
  split; [reflexivity|]. split; [reflexivity|].
  split; [exact stored_tokens_one|]. split; [reflexivity|].
  apply (X8_second_redirection_frees_target "ls" "a" ["b"] ["c"]);
    [reflexivity|reflexivity|exact stored_tokens_one
    |vm_compute; lia|vm_compute; lia].
Defined.

Lemma X9_spaced_and_embedded_redirection_witness :
  has_space "ls" = false /\ first_gt "ls" = None /\
  has_space "out.txt" = false /\ "out.txt" <> EmptyString /\
  exists f1 f2,
    parseInput (Some "ls > out.txt") = Ok (TERMINATED, f1, None) /\
    parseInput (Some "ls>out.txt") = Ok (TERMINATED, f2, None) /\
    _Command f1 = Some "ls" /\ _Command f2 = Some "ls" /\
    redirection_file f1 = Some "out.txt" /\
    redirection_file f2 = Some "out.txt" /\
    argv_executeCommand f1 = Some ["ls"] /\
    argv_executeCommand f2 = Some ["ls"] /\
    forall s, child_executeCommand f1 s = child_executeCommand f2 s.
Proof.
  assert (Hne : "out.txt" <> EmptyString) by discriminate.
  split; [reflexivity|]. split; [reflexivity|]. split; [reflexivity|].
  split; [exact Hne|].
  exact (X9_spaced_and_embedded_redirection "ls" "out.txt"
           eq_refl eq_refl eq_refl Hne).
Defined.

(** "ls | wc" from the first prompt, with the descriptors 3 and 4. *)
Lemma X10_two_stage_pipeline_witness :
  env_pipe env_ok (n_pipe initial_shell) = Some (3, 4) /\
  env_fork env_ok (n_fork initial_shell) = true /\
  env_fork env_ok (S (n_fork initial_shell)) = true /\
  _Command (parsed_frame "wc") = Some "wc" /\
  argv_executeCommand (parsed_frame "wc") = Some ["wc"] /\
  exists s1 s2,
    executeCommandPipe env_ok (parsed_frame "ls | wc") initial_shell
      = Running s1 /\
    is_piped s1 = true /\ _pipe_arr s1 = (3, 4) /\
    executeCommand env_ok (parsed_frame "wc") s1 = Running s2 /\
    relay_idle s2 /\
    new_events s1 s2 =
      [EvFork (Some (ChildExec
         (match redirection_file (parsed_frame "wc") with
          | Some path => [CRedirect path STD_PERMISSIONS]
          | None => []
          end ++
          [CClose 4; CDup2 3 STDIN_FILENO; CClose 3;
           CExecvp (Some "wc") ["wc"] (Some "Shell: Incorrect command")])));
       EvWaitpid; EvClose 3; EvClose 4] /\
    In (EvClose 4) (new_events initial_shell s1).
Proof.
  split; [reflexivity|]. split; [reflexivity|]. split; [reflexivity|].
  split; [reflexivity|]. split; [reflexivity|].
  apply (X10_two_stage_pipeline env_ok (parsed_frame "ls | wc")
           (parsed_frame "wc") initial_shell 3 4 "wc" ["wc"]);
    try reflexivity; discriminate.
Defined.

(** "a | b | c" from the first prompt: the pipes are 3, 4 and 5, 6. *)
Lemma X11_three_stage_pipeline_witness :
  env_pipe env_ok (n_pipe initial_shell) = Some (3, 4) /\
  env_pipe env_ok (S (n_pipe initial_shell)) = Some (5, 6) /\
  _Command (parsed_frame "c") = Some "c" /\
  exists s1 s2 s3 script2,
    executeCommandPipe env_ok (parsed_frame "a | b | c") initial_shell
      = Running s1 /\
    executeCommandPipe env_ok (parsed_frame "b | c") s1 = Running s2 /\
    executeCommand env_ok (parsed_frame "c") s2 = Running s3 /\
    _pipe_arr s1 = (3, 4) /\ _pipe_arr s2 = (5, 6) /\
    In (EvFork (Some (ChildExec script2))) (new_events s1 s2) /\
    (forall fd, ~ In (CDup2 fd STDIN_FILENO) script2) /\
    ~ In (EvClose 3) (new_events initial_shell s3) /\
    relay_idle s3.
Proof.
  split; [reflexivity|]. split; [reflexivity|]. split; [reflexivity|].
  apply (X11_three_stage_pipeline env_ok (parsed_frame "a | b | c")
           (parsed_frame "b | c") (parsed_frame "c") initial_shell
           3 4 5 6 "c");
    try reflexivity; discriminate.
Defined.

(** "cd /etc | ls": the first frame has the pipeline directive. *)
Lemma X12_cd_runs_in_process_witness :
  parseInput (Some "cd /etc | ls")
    = Ok (PIPELINE, parsed_frame "cd /etc | ls", Some "ls") /\
  _Command (parsed_frame "cd /etc | ls") = Some CMD_CD /\
  dispatch env_ok PIPELINE (parsed_frame "cd /etc | ls") (Some "ls")
    initial_shell
    = changeDirectory env_ok (parsed_frame "cd /etc | ls") initial_shell /\
  builtin_effect initial_shell
    (state_of (dispatch env_ok PIPELINE (parsed_frame "cd /etc | ls")
                 (Some "ls") initial_shell)).
Proof.
  split; [vm_compute; reflexivity|].
  assert (H : _Command (parsed_frame "cd /etc | ls") = Some CMD_CD)
    by reflexivity.
  split; [exact H|].
  destruct (X12_cd_runs_in_process env_ok PIPELINE
              (parsed_frame "cd /etc | ls") (Some "ls") initial_shell H)
    as (H1 & H2 & _).
  split; [exact H1|exact H2].
Defined.

Lemma X13_cd_without_working_directory_witness :
  cwd lost_shell = None /\ argument_readable (parsed_frame "cd /etc") /\
  exists s',
    changeDirectory env_ok (parsed_frame "cd /etc") lost_shell = Running s' /\
    match cd_argument (parsed_frame "cd /etc") with
    | Some _ => s' = emit (EvPerror ERR_GETCWD) lost_shell /\ cwd s' = None /\
                new_events lost_shell s' = [EvPerror ERR_GETCWD]
    | None =>
        match env_home env_ok with
        | Some home => chdir_outcome env_ok home lost_shell s'
        | None => s' = lost_shell
        end
    end.
Proof.
  assert (H : argument_readable (parsed_frame "cd /etc"))
    by (right; exists "/etc"; vm_compute; reflexivity).
  split; [reflexivity|]. split; [exact H|].
  exact (X13_cd_without_working_directory env_ok (parsed_frame "cd /etc")
           lost_shell eq_refl H).
Defined.

(** "pwd ## exit". *)
Lemma X14_exit_ends_the_interpreter_witness :
  let s := state_of (dispatch env_ok SEQUENTIAL
                       (parsed_frame "pwd ## exit") (Some "exit")
                       initial_shell) in
  loop_reaches env_ok (Some "pwd ## exit") initial_shell (Some "exit") s /\
  parseInput (Some "exit") = Ok (TERMINATED, parsed_frame "exit", None) /\
  _Command (parsed_frame "exit") = Some CMD_EXIT /\
  run_line env_ok (Some "pwd ## exit") initial_shell =
    Returned 0 (emit (EvPrintf "Exiting shell...") s).
Proof.
  intros s.
  assert (H0 : loop_reaches env_ok (Some "pwd ## exit") initial_shell
                            (Some "exit") s).
  { apply (reaches_turn env_ok _ _ SEQUENTIAL
             (parsed_frame "pwd ## exit") (Some "exit") s);
      [vm_compute; reflexivity|reflexivity|vm_compute; reflexivity|].
    apply reaches_here. }
  assert (H1 : parseInput (Some "exit")
               = Ok (TERMINATED, parsed_frame "exit", None))
    by (vm_compute; reflexivity).
  assert (H2 : _Command (parsed_frame "exit") = Some CMD_EXIT) by reflexivity.
  split; [exact H0|]. split; [exact H1|]. split; [exact H2|].
  exact (X14_exit_ends_the_interpreter env_ok "pwd ## exit" (Some "exit")
           initial_shell s TERMINATED (parsed_frame "exit") H0 H1 H2).
Defined.

Lemma stored_tokens_two : stored_tokens ["a"; "-l"].
Proof. repeat constructor. Qed.


(** Two spaces, "ls  -l", three spaces and the newline. *)
Lemma X16_prepare_line_core_witness :
  starts_with_space "ls  -l" = false /\ ends_with_space "ls  -l" = false /\
  rightTrim (leftTrim (spaces 2 ++ "ls  -l" ++ spaces 3)) = "ls  -l" /\
  prepare_line
    (spaces 2 ++ "ls  -l" ++ spaces 3 ++ String "010"%char EmptyString)
    = "ls  -l".
Proof.
  split; [reflexivity|]. split; [reflexivity|].
  exact (X16_prepare_line_core 2 3 "ls  -l" eq_refl eq_refl).
Defined.

(** ** Control operators between frames *)

Lemma operator_token_tests (d : execution_directive_t) (op : string) :
  operator_token d = Some op -> has_space op = false.
Proof. destruct d; intros [= <-]; reflexivity. Qed.

Lemma parse_tokens_at_operator cmd d op more :
  operator_token d = Some op ->
  parse_tokens cmd (cursor_of (op :: more)) = Ok (d, cmd, cursor_of more).
Proof.
  intros Hop. pose proof (operator_token_tests d op Hop) as Hsp.
  rewrite parse_tokens_step, (strsep_cursor_of op more Hsp).
  destruct d; try discriminate; injection Hop as <-; reflexivity.
Qed.

Section OperatorProperties.

Variable env : environment.

(** X18. A control operator ends a frame and leaves the rest for the next
    parse.  For a command, stored tokens within the capacities, an
    operator and any further tokens: the parse returns the directive of
    the operator, a frame whose command is the first token as it stands
    and whose arrays hold the options and the arguments before the
    operator, and a cursor in front of the tokens after it; the loop of
    main dispatches that frame and goes on with that cursor. *)
Theorem X18_operator_splits_the_line
  (c : string) (toks more : list string) (d : execution_directive_t)
  (op : string) (s : shell) :
  has_space c = false ->
  Forall (fun t => has_space t = false /\ storable t = true) toks ->
  (length (options_of toks) <= OPTSMAX)%nat ->
  (length (arguments_of toks) <= ARGSMAX)%nat ->
  operator_token d = Some op ->
  exists f,
    parseInput (Some (join_tokens (c :: toks ++ op :: more)))
      = Ok (d, f, cursor_of more) /\
    frame_holds f c (options_of toks) (arguments_of toks) /\
    redirection_file f = None /\
    run_line env (Some (join_tokens (c :: toks ++ op :: more))) s =
      match dispatch env d f (cursor_of more) s with
      | Running s1 => run_line env (cursor_of more) s1
      | Broken s1 => Running (after_loop d s1)
      | o => o
      end.
Proof.
  intros Hc Hall Ho Ha Hop.
  destruct (parse_tokens_prefix toks (op :: more) (fresh_frame c) c [] []
              (fresh_frame_holds c) Hall Ho Ha)
    as (f & Hp & Hf & Hr).
  rewrite (parse_tokens_at_operator f d op more Hop) in Hp.
  simpl in Hf, Hr. exists f.
  assert (Hparse : parseInput (Some (join_tokens (c :: toks ++ op :: more)))
                   = Ok (d, f, cursor_of more))
    by (rewrite (parseInput_join c _ Hc); exact Hp).
  split; [exact Hparse|]. split; [exact Hf|]. split; [exact Hr|].
  rewrite run_line_step, Hparse.
  replace (loop_again d) with true by (destruct d; try discriminate; reflexivity).
  reflexivity.
Qed.

(** *** The wait for the children of parallel frames *)

Hypothesis forks_succeed : forall n, env_fork env n = true.












End OperatorProperties.

Lemma X18_operator_splits_the_line_witness :
  stored_tokens ["a"; "-l"] /\
  operator_token SEQUENTIAL = Some _SEQUENTIAL /\
  join_tokens ("ls" :: ["a"; "-l"] ++ _SEQUENTIAL :: ["pwd"]) = "ls a -l ## pwd" /\
  exists f,
    parseInput (Some "ls a -l ## pwd") = Ok (SEQUENTIAL, f, Some "pwd") /\
    frame_holds f "ls" ["-l"] ["a"] /\
    redirection_file f = None /\
    run_line env_ok (Some "ls a -l ## pwd") initial_shell =
      match dispatch env_ok SEQUENTIAL f (Some "pwd") initial_shell with
      | Running s1 => run_line env_ok (Some "pwd") s1
      | Broken s1 => Running (after_loop SEQUENTIAL s1)
      | o => o
      end.
Proof.
  split; [exact stored_tokens_two|]. split; [reflexivity|].
  split; [reflexivity|].
  apply (X18_operator_splits_the_line env_ok "ls" ["a"; "-l"] ["pwd"]
           SEQUENTIAL _SEQUENTIAL initial_shell);
    try reflexivity;
    [exact stored_tokens_two|vm_compute; lia|vm_compute; lia].
Defined.


(** ** exit before the end of a line *)

Section ExitProperties.

Variable env : environment.

(** X20. [exit] with tokens left after its frame: whatever frames the
    loop ran before it, the interpreter prints its message and then
    frees [line], which the parser has moved into the buffer of getline,
    so the call frees a pointer that is not an allocation and the
    behaviour is undefined; the frames after [exit] are not parsed. *)
Theorem X20_exit_before_more_frames
  (input rest : string) (cur : option string) (s0 s : shell)
  (d : execution_directive_t) (f : _xcmf) :
  loop_reaches env (Some input) s0 cur s ->
  parseInput cur = Ok (d, f, Some rest) ->
  _Command f = Some CMD_EXIT ->
  dispatch env d f (Some rest) s =
    Faulted InvalidFree (emit (EvPrintf "Exiting shell...") s) /\
  run_line env (Some input) s0 =
    Faulted InvalidFree (emit (EvPrintf "Exiting shell...") s).
Proof.
  intros Hr Hp Hc.
  assert (Hd : dispatch env d f (Some rest) s =
               Faulted InvalidFree (emit (EvPrintf "Exiting shell...") s)).
  { unfold dispatch. rewrite Hc. reflexivity. }
  split; [exact Hd|].
  rewrite (loop_reaches_run env _ _ _ _ Hr), run_line_step, Hp, Hd.
  reflexivity.
Qed.

End ExitProperties.

(** "exit ## ls". *)
Lemma X20_exit_before_more_frames_witness :
  loop_reaches env_ok (Some "exit ## ls") initial_shell
               (Some "exit ## ls") initial_shell /\
  parseInput (Some "exit ## ls")
    = Ok (SEQUENTIAL, parsed_frame "exit ## ls", Some "ls") /\
  _Command (parsed_frame "exit ## ls") = Some CMD_EXIT /\
  dispatch env_ok SEQUENTIAL (parsed_frame "exit ## ls") (Some "ls")
           initial_shell =
    Faulted InvalidFree (emit (EvPrintf "Exiting shell...") initial_shell) /\
  run_line env_ok (Some "exit ## ls") initial_shell =
    Faulted InvalidFree (emit (EvPrintf "Exiting shell...") initial_shell).
Proof.
  assert (H0 : loop_reaches env_ok (Some "exit ## ls") initial_shell
                            (Some "exit ## ls") initial_shell)
    by apply reaches_here.
  assert (H1 : parseInput (Some "exit ## ls")
               = Ok (SEQUENTIAL, parsed_frame "exit ## ls", Some "ls"))
    by (vm_compute; reflexivity).
  assert (H2 : _Command (parsed_frame "exit ## ls") = Some CMD_EXIT)
    by reflexivity.
  split; [exact H0|]. split; [exact H1|]. split; [exact H2|].
  exact (X20_exit_before_more_frames env_ok "exit ## ls" "ls"
           (Some "exit ## ls") initial_shell initial_shell SEQUENTIAL
           (parsed_frame "exit ## ls") H0 H1 H2).
Defined.
